(** * qb-audio review console: a shallow embedding of the front end

    The embedded sources are

    - [web/src/App.tsx], of which the repository holds two revisions: the
      earlier one (module [App1] below; it defines [LoadingButton] inline and
      knows neither the split modal, nor the version cache, nor the event
      stream) and the later one (module [App2]; it imports
      [components/EditAyahModal], [components/LoadingButton] and
      [stores/audioCache]);
    - [web/src/components/EditAyahModal.tsx];
    - [web/src/components/LoadingButton.tsx].

    Whatever both revisions of [App.tsx] share word for word ([Ayah], the body
    of [fetchAyahs], [getSurahNumber], [parseAyahId], the surah list and the
    filtered rows) is embedded once, before the two modules.

    Conventions.  A JavaScript string is a [string], one [ascii] per code
    unit, so code units above 255 are outside the model.  Asynchronous
    functions are computations in the monad [io]: they emit the calls they
    make to the browser and to React (the [effect]s) in program order and end
    in a value or in a thrown value; what the network answers is an argument
    of the computation. *)

From Stdlib Require Import ZArith Ascii String Floats.
From stdpp Require Import gmap strings list pretty sorting.

Open Scope Z_scope.
Set Warnings "-clear-no-such-hyp".

(** ** JavaScript primitives *)

Module JS.

(** *** Numbers

    Every number that the claims below look into is the result of [parseInt]
    or a difference of two such results: an integer-valued binary64, an
    infinity or NaN.  [Finite z] is the double whose value is the integer
    [z]; the two zeros are not told apart (no operation used here does). *)

Inductive number : Type :=
  | NaN
  | Finite (z : Z)
  | PosInf
  | NegInf.

#[export] Instance number_eq_dec : EqDecision number.
Proof. solve_decision. Defined.

(** Rounding of a positive integer to binary64, ties to even: keep the 53
    leading bits.  [None] is overflow (the rounded value would reach
    [2^1024]). *)
Definition round_mag (a : Z) : option Z :=
  let e := Z.log2 a - 52 in
  if e <=? 0 then Some a
  else
    let q := Z.shiftr a e in
    let r := Z.land a (Z.ones e) in
    let half := Z.shiftl 1 (e - 1) in
    let q' := if (r <? half) || ((r =? half) && Z.even q) then q else q + 1 in
    let v := Z.shiftl q' e in
    if v <? 2 ^ 1024 then Some v else None.

(** The Number value of a mathematical integer. *)
Definition to_double (z : Z) : number :=
  match z with
  | 0 => Finite 0
  | Zpos _ => match round_mag z with Some v => Finite v | None => PosInf end
  | Zneg _ => match round_mag (- z) with Some v => Finite (- v) | None => NegInf end
  end.

(** The same value by the Standard Library's specification of binary64
    rounding, to test [to_double] against. *)
Definition reference_double (z : Z) : number :=
  match binary_normalize 53 1024 z 0 false with
  | S754_zero _ => Finite 0
  | S754_infinity false => PosInf
  | S754_infinity true => NegInf
  | S754_nan => NaN
  | S754_finite s m e =>
      let mag := if 0 <=? e then Z.pos m * 2 ^ e else Z.pos m / 2 ^ (- e) in
      Finite (if s then - mag else mag)
  end.

(** [a - b] on numbers. *)
Definition sub (a b : number) : number :=
  match a, b with
  | NaN, _ | _, NaN => NaN
  | Finite x, Finite y => to_double (x - y)
  | PosInf, PosInf | NegInf, NegInf => NaN
  | PosInf, _ | _, NegInf => PosInf
  | NegInf, _ | _, PosInf => NegInf
  end.

(** [a === b] on numbers: NaN is not equal to itself. *)
Definition strict_eq (a b : number) : bool :=
  match a with
  | NaN => false
  | _ => bool_decide (a = b)
  end.

(** [a !== b]. *)
Definition strict_ne (a b : number) : bool := negb (strict_eq a b).

(** [v > 0], which is false of NaN. *)
Definition is_pos (v : number) : bool :=
  match v with
  | Finite z => 0 <? z
  | PosInf => true
  | _ => false
  end.

(** The numeric order of the numbers that are not NaN. *)
Definition num_lt (a b : number) : Prop :=
  match a, b with
  | NaN, _ | _, NaN => False
  | Finite x, Finite y => x < y
  | NegInf, (Finite _ | PosInf) => True
  | Finite _, PosInf => True
  | _, _ => False
  end.

Definition num_le (a b : number) : Prop := num_lt a b ∨ (a = b ∧ a ≠ NaN).

(** *** Strings *)

(** [s.split(sep)] for a separator of one code unit: never empty, and the
    pieces, joined again with [sep], give [s] back. *)
Fixpoint split (sep : ascii) (s : string) : list string :=
  match s with
  | EmptyString => [EmptyString]
  | String c rest =>
      if Ascii.eqb c sep then EmptyString :: split sep rest
      else
        match split sep rest with
        | [] => [String c EmptyString]
        | piece :: pieces => String c piece :: pieces
        end
  end.

(** [s.includes(c)] for one code unit [c]. *)
Fixpoint includes (c : ascii) (s : string) : bool :=
  match s with
  | EmptyString => false
  | String c' rest => Ascii.eqb c' c || includes c rest
  end.

(** Truthiness of a string: every string but the empty one. *)
Definition truthy (s : string) : bool :=
  match s with
  | EmptyString => false
  | String _ _ => true
  end.

(** White space that [parseInt] skips, among the code units below 256. *)
Definition is_white_space (c : ascii) : bool :=
  match nat_of_ascii c with
  | 9 | 10 | 11 | 12 | 13 | 32 | 160 => true
  | _ => false
  end%nat.

Fixpoint trim_start (s : string) : string :=
  match s with
  | String c rest => if is_white_space c then trim_start rest else s
  | EmptyString => s
  end.

(** The value of a code unit as a digit, whatever the radix. *)
Definition digit_value (c : ascii) : option Z :=
  let n := Z.of_nat (nat_of_ascii c) in
  if (48 <=? n) && (n <=? 57) then Some (n - 48)
  else if (97 <=? n) && (n <=? 122) then Some (n - 87)
  else if (65 <=? n) && (n <=? 90) then Some (n - 55)
  else None.

(** The integer written by the longest prefix of [s] made of radix-[R]
    digits, [acc] being the value of the digits already read ([None] when
    none was). *)
Fixpoint digits (R : Z) (s : string) (acc : option Z) : option Z :=
  match s with
  | EmptyString => acc
  | String c rest =>
      match digit_value c with
      | Some d =>
          if d <? R then digits R rest (Some (default 0 acc * R + d)) else acc
      | None => acc
      end
  end.

(** [parseInt(s)], no radix given: leading white space, a sign, a [0x] or
    [0X] prefix (radix 16, else 10), then the longest run of digits; NaN when
    that run is empty.  (Past twenty significant digits an engine may read
    the remaining ones as zeros; the model reads them all.) *)
Definition parseInt (s : string) : number :=
  let S0 := trim_start s in
  let '(sign, S1) :=
    match S0 with
    | String "-" rest => (-1, rest)
    | String "+" rest => (1, rest)
    | _ => (1, S0)
    end in
  let '(R, S2) :=
    match S1 with
    | String "0" (String "x" rest) | String "0" (String "X" rest) => (16, rest)
    | _ => (10, S1)
    end in
  match digits R S2 None with
  | None => NaN
  | Some mathInt => to_double (sign * mathInt)
  end.

(** [parseInt(x)] where [x] may be [undefined] ([None]): the argument is
    first turned into the string ["undefined"]. *)
Definition parseInt_of (x : option string) : number :=
  parseInt (default "undefined"%string x).

(** *** Numbers as text

    [String(x)], which is also what a template literal makes of a number,
    for the integer-valued [x]: the shortest run of digits [s] (of [k]
    digits) with a power of ten that reads back as [x], written out with
    zeros up to 21 digits and with an exponent beyond.  Below [2^53] an
    integer is the only decimal of its length that reads back as itself, so
    the digits are its own. *)

(** The number of decimal digits of a positive integer. *)
Definition decimal_length (x : Z) : Z := Z.of_nat (String.length (pretty x)).

(** The [k]-digit candidates next to [x], of [D] digits: those among
    [(s, s * 10^(D-k))] for the two [s] around [x / 10^(D-k)] that round to
    [x]. *)
Definition candidates (x D k : Z) : list (Z * Z) :=
  let p := 10 ^ (D - k) in
  let s0 := x / p in
  filter (λ c, to_double c.2 = Finite x) [(s0, s0 * p); (s0 + 1, (s0 + 1) * p)].

(** Of two candidates the one nearer to [x], the even one when they are
    equally near. *)
Definition nearest (x : Z) (cs : list (Z * Z)) : option Z :=
  match cs with
  | [] => None
  | [(s, _)] => Some s
  | (s0, v0) :: (s1, v1) :: _ =>
      Some (if x - v0 <? v1 - x then s0
            else if v1 - x <? x - v0 then s1
            else if Z.even s0 then s0 else s1)
  end.

(** The least [k], from [k] on, that has a candidate, with its digits [s];
    17 digits always do. *)
Fixpoint shortest (x D k : Z) (fuel : nat) : Z * Z :=
  match fuel with
  | O => (x, D)
  | S fuel =>
      if D <? k then (x, D)
      else
        match nearest x (candidates x D k) with
        | Some s => (s, k)
        | None => shortest x D (k + 1) fuel
        end
  end.

Definition zeros (n : Z) : string := String.concat "" (replicate (Z.to_nat n) "0"%string).

Definition positive_toString (x : Z) : string :=
  if x <? 2 ^ 53 then pretty x
  else
    let D := decimal_length x in
    let '(s, k) := shortest x D 1 17 in
    let '(digits, n) := if s =? 10 ^ k then ("1"%string, D + 1) else (pretty s, D) in
    if n <=? 21 then digits +:+ zeros (n - Z.of_nat (String.length digits))
    else
      match digits with
      | String first "" => String first "" +:+ "e+" +:+ pretty (n - 1)
      | String first rest => String first "" +:+ "." +:+ rest +:+ "e+" +:+ pretty (n - 1)
      | EmptyString => EmptyString
      end.

Definition Number_toString (v : number) : string :=
  match v with
  | NaN => "NaN"
  | PosInf => "Infinity"
  | NegInf => "-Infinity"
  | Finite 0 => "0"
  | Finite (Zpos p) => positive_toString (Zpos p)
  | Finite (Zneg p) => "-" +:+ positive_toString (Zpos p)
  end.

(** *** Ordinary objects

    What an ordinary object from strings to counters gives when it is read
    at a key: its own entry, else the member of that name which it inherits
    from [Object.prototype], else [undefined]. *)
Inductive property : Type :=
  | Own (n : nat)
  | Inherited (text : string)
  | Absent.

(** The members of [Object.prototype], each with the text a template
    literal makes of it: a native function in V8's wording, and
    [Object.prototype] itself behind [__proto__]. *)
Definition Object_prototype : list (string * string) :=
  [("constructor", "function Object() { [native code] }");
   ("__defineGetter__", "function __defineGetter__() { [native code] }");
   ("__defineSetter__", "function __defineSetter__() { [native code] }");
   ("hasOwnProperty", "function hasOwnProperty() { [native code] }");
   ("__lookupGetter__", "function __lookupGetter__() { [native code] }");
   ("__lookupSetter__", "function __lookupSetter__() { [native code] }");
   ("isPrototypeOf", "function isPrototypeOf() { [native code] }");
   ("propertyIsEnumerable", "function propertyIsEnumerable() { [native code] }");
   ("toString", "function toString() { [native code] }");
   ("valueOf", "function valueOf() { [native code] }");
   ("__proto__", "[object Object]");
   ("toLocaleString", "function toLocaleString() { [native code] }")]%string.

Definition inherited (k : string) : option string :=
  snd <$> List.find (λ member, String.eqb (fst member) k) Object_prototype.

(** [object[k]] *)
Definition read (object : gmap string nat) (k : string) : property :=
  match object !! k with
  | Some n => Own n
  | None =>
      match inherited k with
      | Some text => Inherited text
      | None => Absent
      end
  end.

(** [p || 0]: zero and [undefined] are falsy, a function or an object is
    not. *)
Definition or_zero (p : property) : property :=
  match p with
  | Own 0 | Absent => Own 0
  | _ => p
  end.

(** [`${p}`] *)
Definition property_text (p : property) : string :=
  match p with
  | Own n => Number_toString (to_double (Z.of_nat n))
  | Inherited text => text
  | Absent => "undefined"
  end.

(** *** Arrays *)

(** [Array.from(new Set(xs))]: the elements in the order of their first
    occurrence.  A Set compares with SameValueZero, under which NaN equals
    NaN and the two zeros are one: on [number] that is [=]. *)
Definition from_set {A} `{EqDecision A} (xs : list A) : list A :=
  foldl (λ set x, if decide (x ∈ set) then set else set ++ [x]) [] xs.

(** [xs.sort(compareFn)].  ECMAScript asks for a stable sort and fixes the
    result when [compareFn] is a consistent comparator; otherwise the order is
    left to the engine.  The model is the stable insertion sort: [x], which
    stood before all of [sorted], moves behind exactly the elements [y] it
    meets with [compareFn(x, y) > 0] (a NaN from [compareFn] counts as 0). *)
Fixpoint insert {A} (compareFn : A → A → number) (x : A) (sorted : list A) : list A :=
  match sorted with
  | [] => [x]
  | y :: rest =>
      if is_pos (compareFn x y) then y :: insert compareFn x rest
      else x :: sorted
  end.

Definition sort {A} (compareFn : A → A → number) (xs : list A) : list A :=
  foldr (insert compareFn) [] xs.

(** [compareFn] orders the elements of [xs] as the relation [R] does. *)
Definition agrees {A} (compareFn : A → A → number) (R : relation A) (xs : list A) : Prop :=
  ∀ x y, x ∈ xs → y ∈ xs → if is_pos (compareFn x y) then R y x else R x y.

(** *** Exceptions and asynchronous functions *)

(** What a [catch] clause can tell of the value it caught:
    [err instanceof Error ? err.message : ...]. *)
Inductive thrown : Type :=
  | ErrorObject (message : string)
  | OtherValue.

(** [err instanceof Error ? err.message : "An error occurred"] *)
Definition message_or_default (err : thrown) : string :=
  match err with
  | ErrorObject message => message
  | OtherValue => "An error occurred"
  end.

Inductive completion (A : Type) : Type :=
  | Returns (a : A)
  | Throws (e : thrown).
Arguments Returns {A} a.
Arguments Throws {A} e.

(** A run of an asynchronous function: the effects it emitted, in order, and
    how it ended. *)
Definition io (E A : Type) : Type := (list E * completion A)%type.

Section Monad.
Context {E : Type}.

Definition ret {A} (a : A) : io E A := ([], Returns a).

Definition bind {A B} (m : io E A) (k : A → io E B) : io E B :=
  match m with
  | (es, Returns a) => let '(es', c) := k a in (es ++ es', c)
  | (es, Throws e) => (es, Throws e)
  end.

Definition emit (e : E) : io E () := ([e], Returns ()).

Definition throw {A} (e : thrown) : io E A := ([], Throws e).

(** [try { body } catch (err) { handler }] *)
Definition try_catch {A} (body : io E A) (handler : thrown → io E A) : io E A :=
  match body with
  | (es, Returns a) => (es, Returns a)
  | (es, Throws e) => let '(es', c) := handler e in (es ++ es', c)
  end.

(** [try { body } finally { finalizer }] *)
Definition try_finally {A} (body : io E A) (finalizer : io E ()) : io E A :=
  match body, finalizer with
  | (es, c), (es', Returns _) => (es ++ es', c)
  | (es, _), (es', Throws e) => (es ++ es', Throws e)
  end.

(** [if (cond) { m }] *)
Definition when (cond : bool) (m : io E ()) : io E () :=
  if cond then m else ret ().

Definition effects {A} (m : io E A) : list E := m.1.

(** An expression that emits nothing and may throw. *)
Definition eval {A} (c : completion A) : io E A := ([], c).

(** A call of an asynchronous function that is not awaited: how it ends
    is nobody's concern. *)
Definition detached {A} (m : io E A) : io E () := (effects m, Returns ()).
End Monad.

(** *** Parsed JSON

    The values [JSON.parse] returns.  A number is carried by the text that
    [String(n)] gives for it, which is all a template literal asks of it. *)
#[warnings="-register-all"]
Inductive value : Type :=
  | Null
  | Bool (b : bool)
  | Number (shown : string)
  | Str (s : string)
  | Array (items : list value)
  | Object (props : list (string * value)).

(** [v.k], where [v] may be [undefined] ([None]) and so may the result.
    Reading a property of [null] or [undefined] throws a TypeError (the
    message is V8's; no handler below reads it).  The keys asked for below
    ([type], [data], [item_id], [error]) are own properties or absent. *)
Definition get (v : option value) (k : string) : completion (option value) :=
  match v with
  | None | Some Null =>
      Throws (ErrorObject ("Cannot read properties of "
                           +:+ (if v is None then "undefined" else "null")
                           +:+ " (reading '" +:+ k +:+ "')"))
  | Some (Object props) => Returns (snd <$> List.find (λ p, String.eqb (fst p) k) props)
  | Some _ => Returns None
  end.

(** [`${v}`] *)
Fixpoint to_string (v : value) : string :=
  match v with
  | Null => "null"
  | Bool true => "true"
  | Bool false => "false"
  | Number shown => shown
  | Str s => s
  | Array items =>
      String.concat ","
        (List.map (λ x, match x with Null => ""%string | _ => to_string x end) items)
  | Object _ => "[object Object]"
  end.

Definition template (v : option value) : string :=
  match v with
  | None => "undefined"
  | Some v => to_string v
  end.

(** [v === "literal"] *)
Definition is_string (v : option value) (literal : string) : bool :=
  match v with
  | Some (Str s) => String.eqb s literal
  | _ => false
  end.

Declare Scope io_scope.
Delimit Scope io_scope with io.
Notation "x <- m ;; k" := (bind m (λ x, k))
  (at level 100, m at next level, right associativity) : io_scope.
Notation "m ;; k" := (bind m (λ _, k))
  (at level 100, right associativity) : io_scope.

End JS.

Import JS.

(** ** What the two revisions of [App.tsx] share *)

Definition API_BASE_URL : string := "http://localhost:8000".

(** [interface Ayah] *)
Record Ayah : Type := {
  id : string;
  combined_url : string;
  arabic_url : option string;
  english_url : option string;
  source_translation : option string;
  english_transcription : option string;
  matches : option bool;
  wer : option float;
  forced_approved : option bool;
}.

(** *** Effects *)

Inductive method : Type := GET | POST.

(** The [init] argument of [fetch].  A body is kept as the object handed to
    [JSON.stringify], with the header [Content-Type: application/json]. *)
Record request : Type := {
  req_method : method;
  req_url : string;
  req_split_time_ms : option float;
}.

(** What the handlers read of a [Response]: [ok], [statusText] and the result
    of [json()]. *)
Record response : Type := {
  ok : bool;
  statusText : string;
  json : completion (list Ayah);
}.

Inductive effect : Type :=
  | Fetch (req : request)
  | SetAyahs (data : list Ayah)
  | SetIsLoading (loading : bool)
  | SetError (message : string)
  | SetSelectedSurah (surah : number)
  | SetEditingAyah (ayah : option Ayah)
  | ButtonSetIsLoading (loading : bool)
  | Alert (text : string)
  | ConsoleError.

(** [await fetch(url, init)]: the request goes out; the promise resolves to
    a response or rejects, as [answer] says. *)
Definition fetch (req : request) (answer : completion response) : io effect response :=
  ([Fetch req], answer).

(** *** [useAyahs] *)

Record hook : Type := {
  ayahs : list Ayah;
  isLoading : bool;
  error : option string;
}.

(** The three [useState] initial values. *)
Definition mount : hook :=
  {| ayahs := []; isLoading := true; error := None |}.

Definition set_state (h : hook) (e : effect) : hook :=
  match e with
  | SetAyahs data => {| ayahs := data; isLoading := isLoading h; error := error h |}
  | SetIsLoading b => {| ayahs := ayahs h; isLoading := b; error := error h |}
  | SetError msg => {| ayahs := ayahs h; isLoading := isLoading h; error := Some msg |}
  | _ => h
  end.

Definition commit (h : hook) (es : list effect) : hook := foldl set_state h es.

(** The body of [fetchAyahs].  [seen] is the [ayahs] of the render in which
    this closure was created, [answer] what the server does with
    [GET /ayahs]. *)
Definition fetchAyahs (seen : list Ayah) (answer : completion response) : io effect () :=
  try_finally
    (try_catch
       (when (length seen =? 0)%nat (emit (SetIsLoading true)) ;;
        response <- fetch {| req_method := GET;
                             req_url := API_BASE_URL +:+ "/ayahs";
                             req_split_time_ms := None |} answer ;;
        when (negb (ok response)) (throw (ErrorObject "Failed to fetch ayahs")) ;;
        data <- eval (json response) ;;
        emit (SetAyahs data))%io
       (λ err, emit (SetError (message_or_default err))))
    (emit (SetIsLoading false)).

(** The requests among the effects of a run, and whether a run turns the
    loading flag on. *)
Definition is_fetch (e : effect) : Prop :=
  match e with
  | Fetch _ => True
  | _ => False
  end.

#[export] Instance is_fetch_dec e : Decision (is_fetch e).
Proof. destruct e; simpl; apply _. Defined.

Definition sets_loading (es : list effect) : Prop := SetIsLoading true ∈ es.

(** [React.useCallback(fn, deps)] keeps the closure of an earlier render
    until one of [deps] changes.  The earlier revision passes [[]], the later
    one [[ayahs.length]]. *)
Inductive deps : Type := NoDeps | AyahsLength.

Definition deps_changed (d : deps) (seen now : list Ayah) : bool :=
  match d with
  | NoDeps => false
  | AyahsLength => negb (length seen =? length now)%nat
  end.

(** The hook between two renders: its state and the [ayahs] that the
    memoised [fetchAyahs] closes over. *)
Record instance : Type := {
  state : hook;
  closure : list Ayah;
}.

Definition first_render : instance := {| state := mount; closure := [] |}.

(** One call of [refetch] (the memoised [fetchAyahs]), its state updates, and
    the render that follows them. *)
Definition refetch (d : deps) (i : instance) (answer : completion response) : instance :=
  let h := commit (state i) (effects (fetchAyahs (closure i) answer)) in
  {| state := h;
     closure := if deps_changed d (closure i) (ayahs h) then ayahs h else closure i |}.

(** [useEffect(() => { fetchAyahs(); }, [fetchAyahs])]: the effect runs
    again, and with it a fetch, after a render in which [useCallback] has
    made a new closure. *)
Definition fetches_again (d : deps) (i : instance) (answer : completion response) : bool :=
  deps_changed d (closure i)
    (ayahs (commit (state i) (effects (fetchAyahs (closure i) answer)))).

(** The instances a component goes through, whatever the server answers. *)
Inductive reachable (d : deps) : instance → Prop :=
  | reachable_first : reachable d first_render
  | reachable_refetch i answer :
      reachable d i → reachable d (refetch d i answer).

(** A fetch fails when the promise rejects, when the status is not 2xx or
    when the body is not JSON. *)
Definition failed (answer : completion response) : Prop :=
  match answer with
  | Throws _ => True
  | Returns r => ok r = false ∨ ∃ e, json r = Throws e
  end.

(** *** Surahs and rows *)

Definition getSurahNumber (ayahId : string) : number :=
  parseInt_of (split "_" ayahId !! 0%nat).

Record AyahId : Type := { surah : number; ayah : number }.

Definition parseAyahId (ayahId : string) : AyahId :=
  let parts := split "_" ayahId in
  {| surah := parseInt_of (parts !! 0%nat);
     ayah := if (1 <? length parts)%nat then parseInt_of (parts !! 1%nat) else Finite 0 |}.

(** [Array.from(new Set(ayahs.map(...))).sort((a, b) => a - b)] *)
Definition surahNumbers (ayahs : list Ayah) : list number :=
  sort (λ a b, sub a b) (from_set (map (λ ayah, getSurahNumber (id ayah)) ayahs)).

(** The effect "Set initial surah if not set". *)
Definition set_initial_surah (surahNumbers : list number) (selectedSurah : option number)
  : io effect () :=
  if (0 <? length surahNumbers)%nat && bool_decide (selectedSurah = None) then
    match surahNumbers !! 0%nat with
    | Some first => emit (SetSelectedSurah first)
    | None => ret ()
    end
  else ret ().

Definition compareAyahs (a b : Ayah) : number :=
  let idA := parseAyahId (id a) in
  let idB := parseAyahId (id b) in
  if strict_ne (surah idA) (surah idB) then sub (surah idA) (surah idB)
  else sub (ayah idA) (ayah idB).

Definition filteredAyahs (ayahs : list Ayah) (selectedSurah : number) : list Ayah :=
  sort compareAyahs
    (filter (λ ayah, strict_eq (getSurahNumber (id ayah)) selectedSurah) ayahs).

(** *** The table *)

Inductive button : Type := Edit | AutoSplit | Approve.

#[export] Instance button_eq_dec : EqDecision button.
Proof. solve_decision. Defined.

(** [<audio controls src=... title=...>] *)
Record audio : Type := { src : string; title : string }.

(** A [<tr>] of [AyahTable], without its text cells. *)
Record tr : Type := {
  key : string;
  combined : option audio;
  arabic : option audio;
  english : option audio;
  actions : list button;
}.

(** [{cond && (<X />)}] inside a list of children. *)
Definition shown {A} (cond : bool) (x : A) : list A := if cond then [x] else [].

(** [{url && (<AudioPlayer src={url} ... />)}] *)
Definition audio_cell (AudioPlayer : string → string → audio)
    (url : option string) (title : string) : option audio :=
  match url with
  | Some u => if truthy u then Some (AudioPlayer u title) else None
  | None => None
  end.

(** What [App] returns. *)
Inductive view : Type :=
  | Nothing
  | LoadingScreen
  | ErrorScreen (message : string)
  | Page (surahNumbers : list number) (selectedSurah : number) (rows : list tr).

Definition App_view (AyahTable_row : Ayah → tr) (h : hook) (selectedSurah : option number)
  : view :=
  match selectedSurah with
  | None => Nothing
  | Some selected =>
      if isLoading h then LoadingScreen
      else
        match error h with
        | Some (String _ _ as message) => ErrorScreen message
        | _ => Page (surahNumbers (ayahs h)) selected
                 (AyahTable_row <$> filteredAyahs (ayahs h) selected)
        end
  end.

(** [splitAyah], the handler of "Auto-Split". *)
Definition splitAyah (onRefresh : io effect ()) (id : string)
    (answer : completion response) : io effect () :=
  (response <- fetch {| req_method := POST;
                        req_url := API_BASE_URL +:+ "/split/" +:+ id;
                        req_split_time_ms := None |} answer ;;
   when (negb (ok response))
     (throw (ErrorObject ("Failed to split ayah: " +:+ statusText response))) ;;
   onRefresh)%io.

(** The handler of "Approve": the response is awaited and not looked at. *)
Definition approve (onRefresh : io effect ()) (id : string)
    (answer : completion response) : io effect () :=
  (_ <- fetch {| req_method := POST;
                 req_url := API_BASE_URL +:+ "/approve/" +:+ id;
                 req_split_time_ms := None |} answer ;;
   onRefresh)%io.

(** *** [App]: the hook together with the selected surah *)

Record app : Type := {
  hooks : instance;
  selected : option number;
}.

Definition set_selected (s : option number) (e : effect) : option number :=
  match e with
  | SetSelectedSurah n => Some n
  | _ => s
  end.

(** The effect that runs after a render, and the state it leaves. *)
Definition after_render (a : app) : app :=
  {| hooks := hooks a;
     selected :=
       foldl set_selected (selected a)
         (effects (set_initial_surah (surahNumbers (ayahs (state (hooks a))))
                     (selected a))) |}.

Definition app_mount : app :=
  after_render {| hooks := first_render; selected := None |}.

(** A call of [refetch], from whichever handler. *)
Definition app_refetch (d : deps) (a : app) (answer : completion response) : app :=
  after_render {| hooks := refetch d (hooks a) answer; selected := selected a |}.

(** [onChange] of the surah selector:
    [(e) => onChange(parseInt(e.target.value))]. *)
Definition app_change (a : app) (value : string) : app :=
  {| hooks := hooks a; selected := Some (parseInt value) |}.

Definition app_run (d : deps) (a : app) (answers : list (completion response)) : app :=
  foldl (app_refetch d) a answers.

(** The states of [App]; a change of surah is allowed at any time, also
    while the selector is not on the page. *)
Inductive app_reachable (d : deps) : app → Prop :=
  | app_reachable_mount : app_reachable d app_mount
  | app_reachable_refetch a answer :
      app_reachable d a → app_reachable d (app_refetch d a answer)
  | app_reachable_change a value :
      app_reachable d a → app_reachable d (app_change a value).

(** A fetch that brings no item: it fails or it delivers the empty array. *)
Definition brings_nothing (answer : completion response) : Prop :=
  failed answer ∨ ∃ r, answer = Returns r ∧ json r = Returns [].

(** Effects that touch neither the network nor any state. *)
Definition is_notice (e : effect) : Prop :=
  match e with
  | Alert _ | ConsoleError => True
  | _ => False
  end.

(** ** [components/LoadingButton.tsx]

    Both revisions of the file, and the copy inlined in the earlier
    [App.tsx], have this [handleClick]. *)
Module LoadingButton.

Definition handleClick (onClick : io effect ()) : io effect () :=
  (emit (ButtonSetIsLoading true) ;;
   try_finally
     (try_catch onClick (λ err, emit (Alert (message_or_default err))))
     (emit (ButtonSetIsLoading false)))%io.

End LoadingButton.

(** ** [components/EditAyahModal.tsx] *)
Module EditAyahModal.

(** [currentTime] is the state set by the waveform's [onTimeupdate], [None]
    for [null]. *)
Definition handleSplit (onSplit : float → io effect ()) (onClose : io effect ())
    (currentTime : option float) : io effect () :=
  match currentTime with
  | Some t => (onSplit (t * 1000)%float ;; onClose)%io
  | None => ret ()
  end.

(** A click on "Split at ...". *)
Definition confirm (onSplit : float → io effect ()) (onClose : io effect ())
    (currentTime : option float) : io effect () :=
  LoadingButton.handleClick (handleSplit onSplit onClose currentTime).

End EditAyahModal.

(** ** [stores/audioCache] *)
Module AudioCache.

(** Modelled from the spec: the module [stores/audioCache] is imported by
    the later [App.tsx] (for [splitAyahsAtom]) but is not among the sources.
    The spec gives its contract: a mapping from identifier to a counter,
    [versionOf(id)] "returns current counter value (0 if unseen)" and
    [bump(id)] "increments the counter for [id] by 1". *)
Definition versionOf (id : string) (cache : gmap string nat) : nat :=
  default 0%nat (cache !! id).

(** Modelled from the spec: [bump(id)] "increments the counter for [id] by
    1"; "repeated calls continue to increment (not deduplicated)". *)
Definition bump (id : string) (cache : gmap string nat) : gmap string nat :=
  <[id := S (versionOf id cache)]> cache.

(** A run of [bump] calls, in the order given. *)
Definition bump_all (ids : list string) (cache : gmap string nat) : gmap string nat :=
  foldl (λ c id, bump id c) cache ids.

End AudioCache.

(** ** [App.tsx], earlier revision *)
Module App1.

Definition useAyahs_deps : deps := NoDeps.

Definition AudioPlayer (src title : string) : audio :=
  {| src := src; title := title |}.

Definition actions_of (matches : option bool) : list button :=
  shown (bool_decide (matches ≠ None)) Edit
  ++ [AutoSplit]
  ++ shown (bool_decide (matches ≠ None) && negb (default false matches)) Approve.

Definition AyahTable_row (ayah : Ayah) : tr :=
  {| key := id ayah;
     combined := audio_cell AudioPlayer (Some (combined_url ayah))
                   ("Combined audio for ayah " +:+ id ayah);
     arabic := audio_cell AudioPlayer (arabic_url ayah)
                 ("Arabic audio for ayah " +:+ id ayah);
     english := audio_cell AudioPlayer (english_url ayah)
                  ("English audio for ayah " +:+ id ayah);
     actions := actions_of (matches ayah) |}.

Definition App (h : hook) (selectedSurah : option number) : view :=
  App_view AyahTable_row h selectedSurah.

End App1.

(** ** [App.tsx], later revision *)
Module App2.

Definition useAyahs_deps : deps := AyahsLength.

(** [splitAyahs] is the value of [splitAyahsAtom]: an ordinary object from
    ayah identifiers to counters, given here by its own entries.  The atom
    lives in [stores/audioCache], so its value is an argument. *)
Definition AudioPlayer (splitAyahs : gmap string nat) (src title : string) : audio :=
  let ayahId := (λ file, split "." file !! 0%nat) <$> last (split "/" src) in
  let version :=
    match ayahId with
    | Some (Some (String _ _ as ayahId)) => or_zero (read splitAyahs ayahId)
    | _ => Own 0
    end in
  {| src := src +:+ "?v=" +:+ property_text version; title := title |}.

Definition actions_of (matches : option bool) : list button :=
  shown (bool_decide (matches ≠ None) && negb (default false matches)) Edit
  ++ shown (bool_decide (matches = None)) AutoSplit
  ++ shown (bool_decide (matches ≠ None) && negb (default false matches)) Approve.

Definition AyahTable_row (splitAyahs : gmap string nat) (ayah : Ayah) : tr :=
  {| key := id ayah;
     combined := audio_cell (AudioPlayer splitAyahs) (Some (combined_url ayah))
                   ("Combined audio for ayah " +:+ id ayah);
     arabic := audio_cell (AudioPlayer splitAyahs) (arabic_url ayah)
                 ("Arabic audio for ayah " +:+ id ayah);
     english := audio_cell (AudioPlayer splitAyahs) (english_url ayah)
                  ("English audio for ayah " +:+ id ayah);
     actions := actions_of (matches ayah) |}.

Definition handleSplitAtTime (editingAyah : option Ayah) (onRefresh : io effect ())
    (answer : completion response) (time : float) : io effect () :=
  match editingAyah with
  | None => ret ()
  | Some editing =>
      (response <- fetch {| req_method := POST;
                            req_url := API_BASE_URL +:+ "/split_custom/" +:+ id editing;
                            req_split_time_ms := Some time |} answer ;;
       when (negb (ok response))
         (throw (ErrorObject ("Failed to split ayah: " +:+ statusText response))) ;;
       onRefresh)%io
  end.

(** The modal as [AyahTable] mounts it: [onClose] clears [editingAyah],
    [onSplit] is [handleSplitAtTime]. *)
Definition confirm_split (editingAyah : Ayah) (onRefresh : io effect ())
    (answer : completion response) (currentTime : option float) : io effect () :=
  EditAyahModal.confirm
    (handleSplitAtTime (Some editingAyah) onRefresh answer)
    (emit (SetEditingAyah None))
    currentTime.

(** [es.onmessage].  [parsed] is what [JSON.parse(e.data)] does; [refetch()]
    is called and not awaited, so how it ends is dropped. *)
Definition onmessage (refetch : io effect ()) (parsed : completion value) : io effect () :=
  try_catch
    (msg <- eval parsed ;;
     type <- eval (get (Some msg) "type") ;;
     if is_string type "split_finished" then detached refetch
     else if is_string type "split_failed" then
       data <- eval (get (Some msg) "data") ;;
       item_id <- eval (get data "item_id") ;;
       error <- eval (get data "error") ;;
       emit (Alert ("Split failed for " +:+ template item_id +:+ ": " +:+ template error))
     else ret ())%io
    (λ err, emit ConsoleError).

Definition App (splitAyahs : gmap string nat) (h : hook) (selectedSurah : option number)
  : view :=
  App_view (AyahTable_row splitAyahs) h selectedSurah.

(** The result of [getSurahStatus]: ["all"], ["some"], ["none"] or
    ["unprocessed"]. *)
Inductive status : Type := StatusAll | StatusSome | StatusNone | StatusUnprocessed.

Definition getSurahStatus (ayahs : list Ayah) (surahNumber : number) : status :=
  let surahAyahs :=
    filter (λ ayah, strict_eq (getSurahNumber (id ayah)) surahNumber) ayahs in
  if (length surahAyahs =? 0)%nat then StatusNone
  else
    let processedAyahs := filter (λ ayah, matches ayah ≠ None) surahAyahs in
    if (length processedAyahs =? 0)%nat then StatusUnprocessed
    else
      let matchingAyahs := filter (λ ayah, matches ayah = Some true) processedAyahs in
      if (length matchingAyahs =? length processedAyahs)%nat then StatusAll
      else StatusSome.

(** The clicks on the three buttons of a row, [refetch] being the
    [fetchAyahs] that closes over [seen]: [first] answers the POST, [second]
    the read of the collection that may follow. *)
Definition click_auto_split (seen : list Ayah) (ayah : Ayah)
    (first second : completion response) : io effect () :=
  LoadingButton.handleClick (splitAyah (fetchAyahs seen second) (id ayah) first).

Definition click_approve (seen : list Ayah) (ayah : Ayah)
    (first second : completion response) : io effect () :=
  LoadingButton.handleClick (approve (fetchAyahs seen second) (id ayah) first).

Definition click_edit (ayah : Ayah) : io effect () :=
  LoadingButton.handleClick (emit (SetEditingAyah (Some ayah))).

End App2.

(** Strings made of the digits [0] to [9] only. *)
Fixpoint decimal (s : string) : bool :=
  match s with
  | EmptyString => true
  | String c rest =>
      match digit_value c with
      | Some d => (d <? 10) && decimal rest
      | None => false
      end
  end.

(** ** Sample data *)
Module Sample.

Definition item (id : string) (matches : option bool) : Ayah :=
  {| id := id;
     combined_url := "/audio/" +:+ id +:+ ".mp3";
     arabic_url := Some ("/audio/" +:+ id +:+ "_ar.mp3");
     english_url := None;
     source_translation := None;
     english_transcription := None;
     matches := matches;
     wer := None;
     forced_approved := None |}.

(** A collection whose surah numbers come as 2, 1, 3. *)
Definition collection : list Ayah :=
  [item "2_1" None; item "1_2" (Some true); item "3_1" (Some false); item "1_1" None].

Definition ok_with (data : list Ayah) : completion response :=
  Returns {| ok := true; statusText := "OK"; json := Returns data |}.

Definition server_error : completion response :=
  Returns {| ok := false; statusText := "Internal Server Error"; json := Throws OtherValue |}.

(** The binary64 nearest to 12.345, which is what the literal [12.345]
    denotes in JavaScript. *)
Definition seconds_12_345 : float := 0x1.8b0a3d70a3d71p+3%float.

Definition split_finished : value :=
  Object [("type", Str "split_finished"); ("data", Object [("item_id", Str "2_5")])]%string.

Definition split_failed : value :=
  Object [("type", Str "split_failed");
          ("data", Object [("item_id", Str "2_5"); ("error", Str "x")])]%string.

End Sample.

(** * Facts about the primitives *)

Section Numbers.

Example to_double_reference :
  Forall (λ z, to_double z = reference_double z)
    [0; 1; -1; 114; 2 ^ 53; 2 ^ 53 + 1; 2 ^ 53 + 2; 2 ^ 53 + 3; - (2 ^ 53 + 1);
     - (2 ^ 53 + 3); 2 ^ 54 + 2; 2 ^ 54 + 6; 2 ^ 60 + 2 ^ 7; 3 * 2 ^ 7 + 2 ^ 60;
     10 ^ 20 + 1; 123456789012345678901234567890; 10 ^ 300;
     2 ^ 1024 - 2 ^ 970 - 1; 2 ^ 1024 - 2 ^ 970; 2 ^ 1024; - 10 ^ 400].
Proof. repeat constructor. Qed.

Example parseInt_examples :
  parseInt "114" = Finite 114 ∧ parseInt "  -7px" = Finite (-7)
  ∧ parseInt "0x1F" = Finite 31 ∧ parseInt "" = NaN ∧ parseInt "x" = NaN
  ∧ parseInt "0x" = NaN ∧ parseInt "9007199254740993" = Finite 9007199254740992
  ∧ parseInt_of None = NaN.
Proof. repeat split. Qed.

Example split_examples :
  split "_" "2_5" = ["2"; "5"]%string ∧ split "_" "" = [""]%string
  ∧ split "_" "a__b_" = ["a"; ""; "b"; ""]%string
  ∧ split "/" "http://h/a/2_5.mp3" = ["http:"; ""; "h"; "a"; "2_5.mp3"]%string.
Proof. repeat split. Qed.

Lemma round_mag_pos a v : 0 < a → round_mag a = Some v → 0 < v.
Proof.
  intros Ha. unfold round_mag.
  destruct (Z.leb_spec (Z.log2 a - 52) 0) as [_|He]; [congruence|].
  set (e := Z.log2 a - 52) in *.
  assert (Hq : 0 < Z.shiftr a e).
  { rewrite Z.shiftr_div_pow2 by lia.
    apply Z.div_str_pos. split; [apply Z.pow_pos_nonneg; lia|].
    transitivity (2 ^ Z.log2 a); [apply Z.pow_le_mono_r; lia|].
    apply Z.log2_spec; lia. }
  destruct (_ || _); destruct (_ <? 2 ^ 1024); intros [= <-];
    rewrite Z.shiftl_mul_pow2 by lia;
    apply Z.mul_pos_pos; try lia; apply Z.pow_pos_nonneg; lia.
Qed.

Lemma is_pos_to_double z : is_pos (to_double z) = bool_decide (0 < z).
Proof.
  destruct z as [|p|p]; unfold to_double; [done| |].
  - rewrite (bool_decide_eq_true_2 (0 < Z.pos p)) by lia.
    destruct (round_mag (Z.pos p)) as [v|] eqn:Hv; [|done].
    apply round_mag_pos in Hv; [|lia]. by apply Z.ltb_lt.
  - rewrite (bool_decide_eq_false_2 (0 < Z.neg p)) by lia.
    change (- Z.neg p) with (Z.pos p).
    destruct (round_mag (Z.pos p)) as [v|] eqn:Hv; [|done].
    apply round_mag_pos in Hv; [|lia]. apply Z.ltb_ge. lia.
Qed.

(** The sign of a difference follows the numeric order. *)
Lemma is_pos_sub a b : a ≠ NaN → b ≠ NaN → is_pos (sub a b) = true ↔ num_lt b a.
Proof.
  destruct a as [|x| |], b as [|y| |]; simpl; try done.
  intros _ _. rewrite is_pos_to_double, bool_decide_eq_true. lia.
Qed.

Lemma to_double_exact (z : Z) : 0 ≤ z < 2 ^ 53 → to_double z = Finite z.
Proof.
  intros [Hlo Hhi]. destruct z as [|p|p]; [done| |lia].
  unfold to_double, round_mag.
  assert (Z.log2 (Z.pos p) < 53) by (apply Z.log2_lt_pow2; lia).
  by rewrite (proj2 (Z.leb_le _ _)) by lia.
Qed.

(** A counter below [2^53] is printed in decimal. *)
Lemma property_text_counter (n : nat) :
  Z.of_nat n < 2 ^ 53 → property_text (Own n) = pretty n.
Proof.
  intros Hn. unfold property_text. rewrite to_double_exact by lia.
  destruct n as [|n]; [done|]. unfold Number_toString.
  change (Z.of_nat (S n)) with (Z.pos (Pos.of_succ_nat n)) in *.
  unfold positive_toString. by rewrite (proj2 (Z.ltb_lt _ _)) by lia.
Qed.

(** At a key that names no member of [Object.prototype], [object[k] || 0]
    is the object's own counter, or 0. *)
Lemma or_zero_read (object : gmap string nat) (k : string) :
  inherited k = None → or_zero (read object k) = Own (default 0%nat (object !! k)).
Proof. unfold read. intros ->. by destruct (object !! k) as [[|n]|]. Qed.

Lemma num_lt_trans a b c : num_lt a b → num_lt b c → num_lt a c.
Proof. destruct a, b, c; simpl; try done; try lia. Qed.

Lemma num_le_total a b : a ≠ NaN → b ≠ NaN → num_le a b ∨ num_lt b a.
Proof.
  unfold num_le. destruct a as [|x| |], b as [|y| |]; simpl; try done; try tauto;
    try (left; right; done).
  intros _ _. destruct (Z.lt_total x y) as [?|[->|?]]; auto.
Qed.

#[export] Instance num_le_transitive : Transitive num_le.
Proof.
  intros a b c [H1|[-> ?]] [H2|[<- ?]]; unfold num_le; eauto using num_lt_trans.
Qed.

Lemma strict_eq_true a b : strict_eq a b = true ↔ a = b ∧ a ≠ NaN.
Proof.
  destruct a; simpl; rewrite ?bool_decide_eq_true; naive_solver.
Qed.

End Numbers.

Section Arrays.
Context {A : Type}.

Lemma insert_perm (compareFn : A → A → number) x l :
  insert compareFn x l ≡ₚ x :: l.
Proof.
  induction l as [|y l IH]; simpl; [done|].
  destruct (is_pos _); [|done].
  rewrite IH. apply Permutation_swap.
Qed.

Lemma sort_perm (compareFn : A → A → number) l : sort compareFn l ≡ₚ l.
Proof.
  induction l as [|x l IH]; simpl; [done|].
  fold (sort compareFn l). by rewrite insert_perm, IH.
Qed.

(** A comparator that agrees, on the elements of the array, with a
    transitive relation [R] sorts the array along [R]. *)
Section Sorted.
Context (compareFn : A → A → number) (R : relation A) `{!Transitive R}.

Lemma insert_sorted x l :
  agrees compareFn R (x :: l) → StronglySorted R l →
  StronglySorted R (insert compareFn x l).
Proof.
  intros Hag Hs. induction Hs as [|y l Hs IH Hy]; simpl.
  { repeat constructor. }
  pose proof (Hag x y) as Hxy.
  destruct (is_pos (compareFn x y)).
  - constructor.
    + apply IH. intros a b Ha Hb. apply Hag; set_solver.
    + apply Forall_forall. intros z Hz.
      rewrite insert_perm in Hz. apply elem_of_cons in Hz as [->|Hz].
      * apply Hxy; set_solver.
      * by eapply Forall_forall in Hy.
  - assert (R x y) by (apply Hxy; set_solver).
    constructor; [by constructor|].
    constructor; [done|].
    eapply Forall_impl; [exact Hy|]. intros z Hz. by transitivity y.
Qed.

Lemma sort_sorted l : agrees compareFn R l → StronglySorted R (sort compareFn l).
Proof.
  induction l as [|x l IH]; intros Hag; simpl; [constructor|].
  fold (sort compareFn l). apply insert_sorted.
  - intros a b Ha Hb. apply Hag; [by rewrite sort_perm in Ha|by rewrite sort_perm in Hb].
  - apply IH. intros a b Ha Hb. apply Hag; set_solver.
Qed.
End Sorted.

Context `{EqDecision A}.

Lemma from_set_acc (xs acc : list A) :
  let r := foldl (λ set x, if decide (x ∈ set) then set else set ++ [x]) acc xs in
  (NoDup acc → NoDup r) ∧ ∀ x, x ∈ r ↔ x ∈ acc ∨ x ∈ xs.
Proof.
  revert acc. induction xs as [|y xs IH]; intros acc; simpl.
  { split; [done|]. set_solver. }
  destruct (IH (if decide (y ∈ acc) then acc else acc ++ [y])) as [IH1 IH2].
  split.
  - intros Hnd. apply IH1. case_decide; [done|].
    apply NoDup_app. split_and!; [done|set_solver|apply NoDup_singleton].
  - intros x. rewrite IH2. case_decide; set_solver.
Qed.

Lemma from_set_NoDup (xs : list A) : NoDup (from_set xs).
Proof. apply (from_set_acc xs []). constructor. Qed.

Lemma elem_of_from_set (xs : list A) x : x ∈ from_set xs ↔ x ∈ xs.
Proof. unfold from_set. rewrite (proj2 (from_set_acc xs [])). set_solver. Qed.

End Arrays.

Section Strings.

Lemma split_nonempty sep s : split sep s ≠ [].
Proof. destruct s as [|c s]; simpl; [done|]. by repeat case_match. Qed.

(** Without the separator in it, a string is its own single piece. *)
Lemma split_without sep s : includes sep s = false → split sep s = [s].
Proof.
  induction s as [|c s IH]; simpl; [done|].
  intros [Hc Hs]%orb_false_iff. rewrite Hc, IH; done.
Qed.

(** The pieces of [a ++ sep ++ b] are those of [a], then those of [b]. *)
Lemma split_app sep a b :
  split sep (a +:+ String sep b) = split sep a ++ split sep b.
Proof.
  induction a as [|c a IH]; simpl.
  - by rewrite Ascii.eqb_refl.
  - rewrite IH. destruct (Ascii.eqb c sep); [done|].
    pose proof (split_nonempty sep a). by destruct (split sep a).
Qed.

Lemma split_last sep dir file :
  includes sep file = false → last (split sep (dir +:+ String sep file)) = Some file.
Proof.
  intros H. by rewrite split_app, (split_without _ _ H), last_snoc.
Qed.

Lemma split_first sep stem rest :
  includes sep stem = false →
  split sep (stem +:+ String sep rest) !! 0%nat = Some stem.
Proof.
  intros H. by rewrite split_app, (split_without _ _ H).
Qed.

Lemma includes_app c a b : includes c (a +:+ b) = includes c a || includes c b.
Proof.
  induction a as [|x a IH]; simpl; [done|]. by rewrite IH, orb_assoc.
Qed.

End Strings.

(** * The version cache and the audio sources *)

Section VersionCache.
Import AudioCache.

Lemma versionOf_unseen id (cache : gmap string nat) :
  cache !! id = None → versionOf id cache = 0%nat.
Proof. unfold versionOf. by intros ->. Qed.

Lemma versionOf_bump id id' (cache : gmap string nat) :
  versionOf id (bump id' cache)
  = (versionOf id cache + if decide (id' = id) then 1 else 0)%nat.
Proof.
  unfold bump. unfold versionOf at 1.
  case_decide as Hid.
  - subst. rewrite lookup_insert_eq. simpl. lia.
  - rewrite lookup_insert_ne by done. fold (versionOf id cache). lia.
Qed.

(** C2.  After any run of [bump] calls, the counter of [id] has grown by
    the number of calls made for [id], wherever the calls for other
    identifiers fall among them; in particular [N] calls for [id] alone
    add exactly [N], and no run of calls ever lowers a counter. *)
Theorem bump_all_versionOf id (calls : list string) (cache : gmap string nat) :
  versionOf id (bump_all calls cache)
  = (versionOf id cache + length (filter (λ id', id' = id) calls))%nat
  ∧ (∀ N, versionOf id (bump_all (replicate N id) cache) = (versionOf id cache + N)%nat)
  ∧ (versionOf id cache ≤ versionOf id (bump_all calls cache))%nat.
Proof.
  assert (Hcount : ∀ calls cache,
    versionOf id (bump_all calls cache)
    = (versionOf id cache + length (filter (λ id', id' = id) calls))%nat).
  { clear. intros calls. induction calls as [|id' calls IH]; intros cache; simpl.
    - lia.
    - unfold bump_all in *. simpl. rewrite IH, versionOf_bump, filter_cons.
      case_decide; simpl; lia. }
  split_and!.
  - apply Hcount.
  - intros N. rewrite Hcount. f_equal.
    induction N as [|N IH]; simpl; [done|].
    rewrite filter_cons_True by done. simpl. by rewrite IH.
  - rewrite Hcount. lia.
Qed.

End VersionCache.

Lemma truthy_app (a b : string) c : truthy (a +:+ String c b) = true.
Proof. by destruct a. Qed.

Lemma AudioPlayer_key (splitAyahs : gmap string nat) (dir stem ext title : string) :
  includes "/" stem = false → includes "." stem = false → includes "/" ext = false →
  truthy stem = true →
  App2.AudioPlayer splitAyahs (dir +:+ "/" +:+ stem +:+ "." +:+ ext) title
  = {| src := (dir +:+ "/" +:+ stem +:+ "." +:+ ext) +:+ "?v="
              +:+ property_text (or_zero (read splitAyahs stem));
       title := title |}.
Proof.
  intros Hs Hd He Hstem. unfold App2.AudioPlayer. do 4 f_equal.
  assert (Hlast : last (split "/" (dir +:+ "/" +:+ stem +:+ "." +:+ ext))
                  = Some (stem +:+ "." +:+ ext)).
  { apply (split_last "/" dir). rewrite includes_app, Hs. exact He. }
  rewrite Hlast. simpl.
  rewrite (split_first "." stem ext Hd
           : split "." (stem +:+ "." +:+ ext) !! 0%nat = Some stem).
  by destruct stem.
Qed.

(** C1, as amended.  In the later revision, a media URL [dir/id.ext] whose
    file is named after the item's identifier [id] (not empty, without ["/"]
    or ["."], and not the name of a member of [Object.prototype]) is
    rendered as a player whose source is the URL followed by [?v=] and
    [versionOf id] in decimal, for a counter below [2^53]; that is [?v=0]
    when the cache has no entry for [id].  In the earlier revision the
    source is the URL as it is. *)
Theorem AudioPlayer_src (splitAyahs : gmap string nat) (dir id ext title : string) :
  includes "/" id = false →
  includes "." id = false →
  includes "/" ext = false →
  truthy id = true →
  inherited id = None →
  Z.of_nat (AudioCache.versionOf id splitAyahs) < 2 ^ 53 →
  let url := dir +:+ "/" +:+ id +:+ "." +:+ ext in
  audio_cell (App2.AudioPlayer splitAyahs) (Some url) title
  = Some {| src := url +:+ "?v=" +:+ pretty (AudioCache.versionOf id splitAyahs);
            title := title |}
  ∧ (splitAyahs !! id = None →
       audio_cell (App2.AudioPlayer splitAyahs) (Some url) title
       = Some {| src := url +:+ "?v=0"; title := title |})
  ∧ audio_cell App1.AudioPlayer (Some url) title = Some {| src := url; title := title |}.
Proof.
  intros Hs Hd He Hid Hmember Hsmall url.
  assert (Hcell : audio_cell (App2.AudioPlayer splitAyahs) (Some url) title
                  = Some {| src := url +:+ "?v="
                                   +:+ pretty (AudioCache.versionOf id splitAyahs);
                            title := title |}).
  { unfold audio_cell. rewrite (truthy_app dir _ "/" : truthy url = true).
    unfold url. rewrite AudioPlayer_key, or_zero_read by done.
    by rewrite property_text_counter. }
  split_and!; [done| |].
  - intros Hnone. rewrite Hcell. unfold AudioCache.versionOf. by rewrite Hnone.
  - unfold audio_cell. by rewrite (truthy_app dir _ "/" : truthy url = true).
Qed.

(** Item [2_5], whose combined clip is [/audio/2_5.mp3], under a cache
    that holds version 3 for it. *)
Lemma AudioPlayer_src_witness :
  let splitAyahs : gmap string nat := {[ "2_5"%string := 3%nat ]} in
  (includes "/" "2_5" = false ∧ includes "." "2_5" = false ∧ includes "/" "mp3" = false
   ∧ truthy "2_5" = true ∧ inherited "2_5" = None
   ∧ Z.of_nat (AudioCache.versionOf "2_5" splitAyahs) < 2 ^ 53)
  ∧ combined (App2.AyahTable_row splitAyahs (Sample.item "2_5" None))
    = Some {| src := "/audio/2_5.mp3?v=3"; title := "Combined audio for ayah 2_5" |}.
Proof.
  intros splitAyahs. split; [by split_and!|].
  exact (proj1 (AudioPlayer_src splitAyahs "/audio" "2_5" "mp3" _
                  eq_refl eq_refl eq_refl eq_refl eq_refl eq_refl)).
Defined.

(** C1 fails as stated.  In the later revision the file of the Arabic clip
    of item [2_5] is not named [2_5], so its player shows version 0 although
    the cache holds version 1 for the identifier; in the earlier revision no
    version is appended at all. *)
Lemma AudioPlayer_src_not_versionOf_id :
  ¬ (∀ (splitAyahs : gmap string nat) (ayah : Ayah) (url : string) (player : audio),
       arabic_url ayah = Some url →
       arabic (App2.AyahTable_row splitAyahs ayah) = Some player →
       src player = url +:+ "?v=" +:+ pretty (AudioCache.versionOf (id ayah) splitAyahs))
  ∧ ¬ (∀ (splitAyahs : gmap string nat) (ayah : Ayah) (player : audio),
         combined (App1.AyahTable_row ayah) = Some player →
         src player = combined_url ayah +:+ "?v="
                      +:+ pretty (AudioCache.versionOf (id ayah) splitAyahs)).
Proof.
  split; intros H.
  - specialize (H {[ "2_5"%string := 1%nat ]} (Sample.item "2_5" None) _ _ eq_refl eq_refl).
    vm_compute in H. discriminate H.
  - specialize (H ∅ (Sample.item "2_5" None) _ eq_refl).
    vm_compute in H. discriminate H.
Qed.

(** * The action buttons *)

(** C3, as amended.  In the later revision a row offers "Auto-Split" alone
    when [matches] is null, "Edit" and "Approve" when it is false, and no
    button when it is true.  In the earlier revision "Auto-Split" is offered
    on every row, "Edit" whenever [matches] is not null and "Approve" when it
    is false. *)
Theorem actions_by_matches (splitAyahs : gmap string nat) (ayah : Ayah) :
  actions (App2.AyahTable_row splitAyahs ayah)
  = match matches ayah with
    | None => [AutoSplit]
    | Some false => [Edit; Approve]
    | Some true => []
    end
  ∧ actions (App1.AyahTable_row ayah)
    = match matches ayah with
      | None => [AutoSplit]
      | Some false => [Edit; AutoSplit; Approve]
      | Some true => [Edit; AutoSplit]
      end.
Proof. by destruct ayah as [? ? ? ? ? ? [[]|] ? ?]. Qed.

(** C3 fails as stated on the earlier revision: a matching item still shows
    buttons there. *)
Lemma App1_matching_row_has_buttons :
  ¬ (∀ ayah : Ayah, matches ayah = Some true → actions (App1.AyahTable_row ayah) = []).
Proof. intros H. by specialize (H (Sample.item "1_2" (Some true)) eq_refl). Qed.

(** * The split modal *)

(** C9.  With no playback position recorded, [handleSplit] does nothing at
    all: it calls neither [onSplit] nor [onClose] and returns normally; the
    click that invoked it only toggles the button's own busy flag. *)
Theorem handleSplit_null (onSplit : float → io effect ()) (onClose : io effect ()) :
  EditAyahModal.handleSplit onSplit onClose None = ([], Returns ())
  ∧ EditAyahModal.confirm onSplit onClose None
    = ([ButtonSetIsLoading true; ButtonSetIsLoading false], Returns ()).
Proof. done. Qed.

(** The sample position is the binary64 nearest to 12345/1000: it lies
    within half a unit in the last place of it. *)
Lemma seconds_12_345_nearest :
  Prim2SF Sample.seconds_12_345 = S754_finite false 6949617174986097 (-49)
  ∧ Z.abs (1000 * 6949617174986097 - 12345 * 2 ^ 49) ≤ 500.
Proof. split; [reflexivity|]. vm_compute. discriminate. Qed.

(** C6.  Confirming with the position [t] recorded sends, as the first
    thing after the button turns busy, a POST to [/split_custom/<id>] of the
    edited item whose [split_time_ms] is the binary64 product [t * 1000];
    for a position of 12.345 seconds that product is 12345. *)
Theorem confirm_split_time (editingAyah : Ayah) (onRefresh : io effect ())
    (answer : completion response) (t : float) :
  (∃ rest,
     effects (App2.confirm_split editingAyah onRefresh answer (Some t))
     = ButtonSetIsLoading true
       :: Fetch {| req_method := POST;
                   req_url := API_BASE_URL +:+ "/split_custom/" +:+ id editingAyah;
                   req_split_time_ms := Some (t * 1000)%float |}
       :: rest)
  ∧ (Sample.seconds_12_345 * 1000)%float = 12345%float.
Proof.
  split; [|reflexivity].
  unfold App2.confirm_split, EditAyahModal.confirm, EditAyahModal.handleSplit,
    LoadingButton.handleClick, App2.handleSplitAtTime, fetch.
  destruct answer as [[[] ? ?]|e], onRefresh as [es [[]|e']]; simpl; eauto.
Qed.

(** * The event stream *)

Lemma bind_eval {E A B} (a : A) (k : A → io E B) : bind (eval (Returns a)) k = k a.
Proof. unfold bind, eval. by destruct (k a). Qed.

(** One call of [fetchAyahs] makes one request, the read of the
    collection. *)
Lemma fetchAyahs_one_fetch seen answer :
  filter is_fetch (effects (fetchAyahs seen answer))
  = [Fetch {| req_method := GET;
              req_url := API_BASE_URL +:+ "/ayahs";
              req_split_time_ms := None |}].
Proof.
  unfold fetchAyahs, fetch.
  destruct seen, answer as [[[] ? [?|?]]|[]]; reflexivity.
Qed.

(** * Fetching the collection *)

Lemma fetchAyahs_sets_loading seen answer :
  sets_loading (effects (fetchAyahs seen answer)) ↔ seen = [].
Proof.
  unfold sets_loading, fetchAyahs, fetch.
  destruct seen, answer as [[[] ? [?|?]]|[]]; simpl; set_solver.
Qed.

(** In the later revision the memoised closure and the state always hold
    collections of one length. *)
Lemma closure_length i :
  reachable AyahsLength i → length (closure i) = length (ayahs (state i)).
Proof.
  induction 1 as [|i answer _ IH]; [done|].
  unfold refetch. simpl.
  destruct (Nat.eqb_spec (length (closure i))
              (length (ayahs (commit (state i)
                 (effects (fetchAyahs (closure i) answer)))))); simpl; done.
Qed.

(** The later revision: a call of [refetch] turns the loading flag on
    exactly when the collection is empty. *)
Lemma App2_refetch_loading i answer :
  reachable App2.useAyahs_deps i →
  sets_loading (effects (fetchAyahs (closure i) answer)) ↔ ayahs (state i) = [].
Proof.
  intros Hlen%closure_length. rewrite fetchAyahs_sets_loading.
  rewrite <-!length_zero_iff_nil. by rewrite Hlen.
Qed.

(** C5, as amended.  A message whose [type] is ["split_finished"] makes the
    handler call [refetch] once and do nothing else, which is one read of
    the collection; in the later revision that read is followed by a further
    one, of the hook's own accord, exactly when it changes the number of
    items.  A message whose [type] is ["split_failed"] and whose [data]
    carries the strings [item_id] and [error] makes the handler raise one
    alert with both in its text, and neither a request nor a state
    update. *)
Theorem onmessage_dispatch (call : io effect ()) (msg : value) :
  (get (Some msg) "type" = Returns (Some (Str "split_finished")) →
     App2.onmessage call (Returns msg) = (effects call, Returns ())
     ∧ (∀ seen answer,
          filter is_fetch (effects (App2.onmessage (fetchAyahs seen answer) (Returns msg)))
          = [Fetch {| req_method := GET;
                      req_url := API_BASE_URL +:+ "/ayahs";
                      req_split_time_ms := None |}])
     ∧ (∀ i answer,
          reachable App2.useAyahs_deps i →
          fetches_again App2.useAyahs_deps i answer = true
          ↔ length (ayahs (state (refetch App2.useAyahs_deps i answer)))
            ≠ length (ayahs (state i))))
  ∧ (∀ data item_id error,
       get (Some msg) "type" = Returns (Some (Str "split_failed")) →
       get (Some msg) "data" = Returns (Some data) →
       get (Some data) "item_id" = Returns (Some (Str item_id)) →
       get (Some data) "error" = Returns (Some (Str error)) →
       App2.onmessage call (Returns msg)
       = ([Alert ("Split failed for " +:+ item_id +:+ ": " +:+ error)], Returns ())).
Proof.
  assert (Hfin : ∀ call, get (Some msg) "type" = Returns (Some (Str "split_finished")) →
            App2.onmessage call (Returns msg) = (effects call, Returns ())).
  { intros r Ht. unfold App2.onmessage. by rewrite !bind_eval, Ht, bind_eval. }
  split.
  - intros Ht. split_and!; [by apply Hfin| |].
    + intros seen answer. rewrite (Hfin _ Ht). apply fetchAyahs_one_fetch.
    + intros i answer Hlen%closure_length.
      unfold fetches_again, refetch. simpl.
      rewrite negb_true_iff, Nat.eqb_neq, Hlen. split; intros H Heq; by apply H.
  - intros data item_id error Ht Hd Hi He.
    unfold App2.onmessage.
    by rewrite !bind_eval, Ht, bind_eval, Hd, bind_eval, Hi, bind_eval, He, bind_eval.
Qed.

Lemma onmessage_dispatch_witness :
  let loaded := refetch App2.useAyahs_deps first_render (Sample.ok_with Sample.collection) in
  (get (Some Sample.split_finished) "type" = Returns (Some (Str "split_finished"))
   ∧ effects (App2.onmessage (fetchAyahs (closure loaded) Sample.server_error)
                (Returns Sample.split_finished))
     = effects (fetchAyahs (closure loaded) Sample.server_error)
   ∧ reachable App2.useAyahs_deps loaded
   ∧ fetches_again App2.useAyahs_deps loaded
       (Sample.ok_with (reverse Sample.collection)) = false)
  ∧ (get (Some Sample.split_failed) "type" = Returns (Some (Str "split_failed"))
     ∧ App2.onmessage (fetchAyahs (closure loaded) Sample.server_error)
         (Returns Sample.split_failed)
       = ([Alert "Split failed for 2_5: x"], Returns ())).
Proof.
  intros loaded.
  assert (Hloaded : reachable App2.useAyahs_deps loaded)
    by apply reachable_refetch, reachable_first.
  pose proof (onmessage_dispatch (fetchAyahs (closure loaded) Sample.server_error)
                Sample.split_finished) as [Hfinished _].
  destruct (Hfinished eq_refl) as (Hcall & _ & Hagain).
  split; [split_and!|split].
  - reflexivity.
  - exact (f_equal fst Hcall).
  - exact Hloaded.
  - apply not_true_is_false.
    rewrite (Hagain loaded (Sample.ok_with (reverse Sample.collection)) Hloaded).
    intros Hne. by apply Hne.
  - reflexivity.
  - exact (proj2 (onmessage_dispatch
                    (fetchAyahs (closure loaded) Sample.server_error)
                    Sample.split_failed)
             (Object [("item_id", Str "2_5"); ("error", Str "x")]%string) "2_5" "x"
             eq_refl eq_refl eq_refl eq_refl).
Defined.

(** C5 fails as stated: in the later revision the read that a
    ["split_finished"] message triggers is not always the only one.  It
    brings one item where four were held, so the hook fetches again of its
    own accord. *)
Lemma split_finished_second_fetch :
  ¬ (∀ i answer,
       reachable App2.useAyahs_deps i →
       filter is_fetch
         (effects (App2.onmessage (fetchAyahs (closure i) answer)
                     (Returns Sample.split_finished)))
       = [Fetch {| req_method := GET;
                   req_url := API_BASE_URL +:+ "/ayahs";
                   req_split_time_ms := None |}]
       ∧ fetches_again App2.useAyahs_deps i answer = false).
Proof.
  intros H.
  destruct (H (refetch App2.useAyahs_deps first_render (Sample.ok_with Sample.collection))
              (Sample.ok_with [Sample.item "7_1" None])) as [_ Hagain].
  - apply reachable_refetch, reachable_first.
  - discriminate Hagain.
Qed.

(** In the earlier revision the closure is the one of the first render for
    good. *)
Lemma App1_closure i : reachable NoDeps i → closure i = [].
Proof. by induction 1. Qed.

(** C8 fails on the earlier revision: every call of [refetch] turns the
    loading flag on, whatever the collection holds. *)
Theorem App1_refetch_loading i answer :
  reachable App1.useAyahs_deps i →
  sets_loading (effects (fetchAyahs (closure i) answer)).
Proof. intros ->%App1_closure. by apply fetchAyahs_sets_loading. Qed.

Lemma App1_refetch_loading_witness :
  let i := refetch App1.useAyahs_deps first_render (Sample.ok_with Sample.collection) in
  reachable App1.useAyahs_deps i
  ∧ ayahs (state i) = Sample.collection
  ∧ sets_loading (effects (fetchAyahs (closure i) Sample.server_error)).
Proof.
  intros i.
  assert (Hi : reachable App1.useAyahs_deps i) by (apply reachable_refetch, reachable_first).
  split_and!; [exact Hi|reflexivity|].
  exact (App1_refetch_loading i Sample.server_error Hi).
Defined.

Lemma fetchAyahs_failed seen answer :
  failed answer →
  ∃ message,
    effects (fetchAyahs seen answer)
    = shown (length seen =? 0)%nat (SetIsLoading true)
      ++ [Fetch {| req_method := GET;
                   req_url := API_BASE_URL +:+ "/ayahs";
                   req_split_time_ms := None |};
          SetError message; SetIsLoading false]
    ∧ (∀ r, answer = Returns r → ok r = false → message = "Failed to fetch ayahs"%string)
    ∧ (∀ r e, answer = Returns r → ok r = true → json r = Throws e →
         message = message_or_default e)
    ∧ (∀ e, answer = Throws e → message = message_or_default e).
Proof.
  unfold fetchAyahs, fetch, failed.
  destruct answer as [[[] st [data|e]]|e]; simpl;
    [intros [?|[? ?]]; done|intros _; eexists..];
    (split; [by destruct seen|]); split_and!; intros; simplify_eq/=; done.
Qed.

(** C4, as amended.  In both revisions a failed read of the collection
    leaves the collection as it was, turns the loading flag off and sets the
    error string, on the first load and on any later refetch alike: to
    "Failed to fetch ayahs" for a non-2xx status, else to the message of
    what was thrown ("An error occurred" if that is not an Error). *)
Theorem failed_fetch_keeps_ayahs (d : deps) (i : instance) (answer : completion response) :
  failed answer →
  let i' := refetch d i answer in
  ayahs (state i') = ayahs (state i)
  ∧ isLoading (state i') = false
  ∧ ∃ message,
      error (state i') = Some message
      ∧ (∀ r, answer = Returns r → ok r = false → message = "Failed to fetch ayahs"%string)
      ∧ (∀ r e, answer = Returns r → ok r = true → json r = Throws e →
           message = message_or_default e)
      ∧ (∀ e, answer = Throws e → message = message_or_default e).
Proof.
  intros (message & Hes & Hmsg)%(fetchAyahs_failed (closure i)). simpl.
  rewrite Hes. unfold commit. rewrite foldl_app. simpl.
  split_and!; [|done|by exists message].
  by destruct (length (closure i) =? 0)%nat.
Qed.

Lemma failed_fetch_keeps_ayahs_witness :
  let i := refetch App2.useAyahs_deps first_render (Sample.ok_with Sample.collection) in
  let i' := refetch App2.useAyahs_deps i Sample.server_error in
  failed Sample.server_error
  ∧ ayahs (state i') = Sample.collection
  ∧ error (state i') = Some "Failed to fetch ayahs"%string.
Proof.
  intros i i'.
  assert (Hf : failed Sample.server_error) by (simpl; auto).
  destruct (failed_fetch_keeps_ayahs App2.useAyahs_deps i Sample.server_error Hf)
    as (Hayahs & _ & message & Herr & Hmsg & _).
  split_and!; [exact Hf|exact Hayahs|].
  rewrite <-(Hmsg _ eq_refl eq_refl). exact Herr.
Defined.

(** C4 fails as stated: the error string is also set when the fetch that
    fails is a background refetch over a collection that is not empty. *)
Lemma error_set_on_background_refetch :
  ¬ (∀ d i answer,
       reachable d i → failed answer →
       error (state (refetch d i answer)) ≠ error (state i) →
       ayahs (state i) = []).
Proof.
  intros H.
  specialize (H App2.useAyahs_deps
                (refetch App2.useAyahs_deps first_render (Sample.ok_with Sample.collection))
                Sample.server_error).
  discriminate H.
  - apply reachable_refetch, reachable_first.
  - simpl. auto.
  - discriminate.
Qed.

(** * Surahs and rows *)

Lemma sub_agrees_num_le (l : list number) :
  (∀ n, n ∈ l → n ≠ NaN) → agrees (λ a b, sub a b) num_le l.
Proof.
  intros Hl x y Hx%Hl Hy%Hl.
  destruct (is_pos (sub x y)) eqn:Hpos.
  - left. by apply is_pos_sub.
  - destruct (num_le_total x y) as [?|Hlt]; [done..|].
    apply is_pos_sub in Hlt; [congruence|done..].
Qed.

Lemma StronglySorted_num_le_lt (l : list number) :
  NoDup l → StronglySorted num_le l → StronglySorted num_lt l.
Proof.
  intros Hnd Hs. induction Hs as [|x l Hs IH Hx]; [constructor|].
  apply NoDup_cons in Hnd as [Hnot Hnd].
  constructor; [by apply IH|].
  apply Forall_forall. intros y Hy.
  destruct (proj1 (Forall_forall _ _) Hx y Hy) as [?|[-> _]]; [done|].
  contradiction.
Qed.

(** C7.  When every identifier of a non-empty collection starts with a
    number, the surah list holds exactly the surah numbers of the items,
    each once, in strictly ascending order; the effect that picks the
    initial surah selects the first entry, which is the least one, when no
    surah is selected, and selects nothing when one is. *)
Theorem surahNumbers_sorted_set (ayahs : list Ayah) :
  ayahs ≠ [] →
  (∀ a, a ∈ ayahs → getSurahNumber (id a) ≠ NaN) →
  let ns := surahNumbers ayahs in
  NoDup ns
  ∧ StronglySorted num_lt ns
  ∧ (∀ n, n ∈ ns ↔ ∃ a, a ∈ ayahs ∧ getSurahNumber (id a) = n)
  ∧ (∃ first,
       effects (set_initial_surah ns None) = [SetSelectedSurah first]
       ∧ first ∈ ns
       ∧ ∀ n, n ∈ ns → num_le first n)
  ∧ (∀ chosen, effects (set_initial_surah ns (Some chosen)) = []).
Proof.
  intros Hne Hnum ns.
  assert (Hin : ∀ n, n ∈ ns ↔ ∃ a, a ∈ ayahs ∧ getSurahNumber (id a) = n).
  { intros n. unfold ns, surahNumbers.
    rewrite sort_perm, elem_of_from_set, list_elem_of_In, in_map_iff.
    setoid_rewrite <-list_elem_of_In. naive_solver. }
  assert (Hnd : NoDup ns).
  { unfold ns, surahNumbers. rewrite sort_perm. apply from_set_NoDup. }
  assert (Hle : StronglySorted num_le ns).
  { apply (sort_sorted _ num_le), sub_agrees_num_le.
    intros n Hn. destruct (proj1 (Hin n)) as [a [Ha <-]]; [|by apply Hnum].
    unfold ns, surahNumbers. by rewrite sort_perm. }
  split_and!; [done|by apply StronglySorted_num_le_lt|done| |].
  - destruct ns as [|first rest] eqn:Hns.
    { destruct ayahs as [|a ?]; [done|].
      exfalso. eapply (not_elem_of_nil (getSurahNumber (id a))), Hin. set_solver. }
    exists first. split_and!; [done|set_solver|].
    intros n [->|Hn]%elem_of_cons.
    + right. split; [done|]. destruct (Hin first) as [[a [Ha <-]] _]; [set_solver|].
      by apply Hnum.
    + apply StronglySorted_inv in Hle as [_ Hall]. by eapply Forall_forall in Hall.
  - intros chosen. unfold set_initial_surah. by rewrite andb_false_r.
Qed.

(** Items with surah numbers 2, 1, 3 (and 1 again): the list is [1, 2, 3]
    and 1 is selected. *)
Lemma surahNumbers_sorted_set_witness :
  surahNumbers Sample.collection = [Finite 1; Finite 2; Finite 3]
  ∧ effects (set_initial_surah (surahNumbers Sample.collection) None)
    = [SetSelectedSurah (Finite 1)]
  ∧ StronglySorted num_lt (surahNumbers Sample.collection).
Proof.
  split_and!; [reflexivity..|].
  refine (proj1 (proj2 (surahNumbers_sorted_set Sample.collection _ _))).
  - discriminate.
  - intros a Ha. repeat (apply elem_of_cons in Ha as [->|Ha]; [discriminate|]).
    by apply elem_of_nil in Ha.
Defined.

Lemma split_length_without (ayahId : string) :
  includes "_" ayahId = false → ayah (parseAyahId ayahId) = Finite 0.
Proof. intros H. unfold parseAyahId. by rewrite (split_without _ _ H). Qed.

(** C10.  When the items of the selected surah all carry a numeric ayah
    component, the rows are exactly the items whose surah number equals the
    selected surah (each as often as the collection holds it), in ascending
    order of their ayah components; an identifier without ["_"] has ayah
    component 0. *)
Theorem filteredAyahs_sorted (ayahs : list Ayah) (selectedSurah : number) :
  (∀ a, a ∈ ayahs → getSurahNumber (id a) = selectedSurah →
        ayah (parseAyahId (id a)) ≠ NaN) →
  let rows := filteredAyahs ayahs selectedSurah in
  rows ≡ₚ filter (λ a, strict_eq (getSurahNumber (id a)) selectedSurah) ayahs
  ∧ (∀ a, a ∈ rows ↔
          a ∈ ayahs ∧ getSurahNumber (id a) = selectedSurah ∧ selectedSurah ≠ NaN)
  ∧ StronglySorted (λ a b, num_le (ayah (parseAyahId (id a))) (ayah (parseAyahId (id b)))) rows
  ∧ (∀ ayahId, includes "_" ayahId = false → ayah (parseAyahId ayahId) = Finite 0).
Proof.
  intros Hnum rows.
  assert (Hin : ∀ a, a ∈ rows ↔
            a ∈ ayahs ∧ getSurahNumber (id a) = selectedSurah ∧ selectedSurah ≠ NaN).
  { intros a. unfold rows, filteredAyahs.
    rewrite sort_perm, list_elem_of_filter, Is_true_true, strict_eq_true. naive_solver. }
  split_and!; [apply sort_perm|done| |apply split_length_without].
  assert (Htrans : Transitive
            (λ a b : Ayah, num_le (ayah (parseAyahId (id a))) (ayah (parseAyahId (id b))))).
  { intros a b c. apply num_le_transitive. }
  apply (sort_sorted compareAyahs _).
  intros a b Ha Hb.
  assert (Hsel : ∀ x, x ∈ filter (λ a, strict_eq (getSurahNumber (id a)) selectedSurah) ayahs →
            x ∈ rows).
  { intros x Hx. unfold rows, filteredAyahs. by rewrite sort_perm. }
  apply Hsel, Hin in Ha as (Ha & Hsa & Hsel_num).
  apply Hsel, Hin in Hb as (Hb & Hsb & _).
  unfold compareAyahs.
  assert (Hsame : strict_ne (surah (parseAyahId (id a))) (surah (parseAyahId (id b))) = false).
  { unfold strict_ne. apply negb_false_iff, strict_eq_true.
    change (surah (parseAyahId (id a))) with (getSurahNumber (id a)).
    change (surah (parseAyahId (id b))) with (getSurahNumber (id b)).
    split; congruence. }
  rewrite Hsame.
  apply (sub_agrees_num_le [ayah (parseAyahId (id a)); ayah (parseAyahId (id b))]);
    [|set_solver..].
  intros n [->|[->|[]%elem_of_nil]%elem_of_cons]%elem_of_cons; by apply Hnum.
Qed.

Lemma filteredAyahs_sorted_witness :
  let ayahs := [Sample.item "1_10" None; Sample.item "2_1" None; Sample.item "1" None;
                Sample.item "1_2" None] in
  id <$> filteredAyahs ayahs (Finite 1) = ["1"; "1_2"; "1_10"]%string
  ∧ filteredAyahs ayahs (Finite 1)
    ≡ₚ filter (λ a, strict_eq (getSurahNumber (id a)) (Finite 1)) ayahs.
Proof.
  intros ayahs. split; [reflexivity|].
  refine (proj1 (filteredAyahs_sorted ayahs (Finite 1) _)).
  intros a Ha _. repeat (apply elem_of_cons in Ha as [->|Ha]; [discriminate|]).
  by apply elem_of_nil in Ha.
Defined.

(** The rows of the page are the rows of [filteredAyahs], in that order. *)
Lemma App2_rows splitAyahs h selectedSurah :
  isLoading h = false → error h = None →
  App2.App splitAyahs h (Some selectedSurah)
  = Page (surahNumbers (ayahs h)) selectedSurah
      (App2.AyahTable_row splitAyahs <$> filteredAyahs (ayahs h) selectedSurah).
Proof. unfold App2.App, App_view. by intros -> ->. Qed.

(** * Further properties of the handlers *)

(** X1.  [handleClick] never throws: whatever [onClick] does, the button is
    set busy first and idle last, and the only thing added to the effects of
    [onClick] is one alert, with the error's message, when [onClick] threw. *)
Theorem handleClick_safe (onClick : io effect ()) :
  LoadingButton.handleClick onClick
  = (ButtonSetIsLoading true
       :: effects onClick
       ++ match onClick.2 with
          | Returns _ => []
          | Throws err => [Alert (message_or_default err)]
          end
       ++ [ButtonSetIsLoading false],
     Returns ()).
Proof.
  destruct onClick as [es [[]|err]]; unfold LoadingButton.handleClick; simpl;
    by rewrite <-?app_assoc.
Qed.

(** X2.  [fetchAyahs] never throws, sends exactly one request, and ends by
    turning the loading flag off: after any call of [refetch] the hook is
    not loading. *)
Theorem fetchAyahs_settles (d : deps) (i : instance) (answer : completion response) :
  (fetchAyahs (closure i) answer).2 = Returns ()
  ∧ length (filter is_fetch (effects (fetchAyahs (closure i) answer))) = 1%nat
  ∧ last (effects (fetchAyahs (closure i) answer)) = Some (SetIsLoading false)
  ∧ isLoading (state (refetch d i answer)) = false.
Proof.
  split_and!.
  - unfold fetchAyahs, fetch. by destruct (closure i), answer as [[[] ? [?|?]]|[]].
  - by rewrite fetchAyahs_one_fetch.
  - unfold fetchAyahs, fetch. by destruct (closure i), answer as [[[] ? [?|?]]|[]].
  - unfold refetch, fetchAyahs, fetch. simpl.
    by destruct (closure i), answer as [[[] ? [?|?]]|[]].
Qed.

(** X3.  A fetch that succeeds replaces the collection by the array
    received and leaves the error string as it was: nothing ever clears an
    error, so once a fetch has failed with a message the page shows that
    message instead of the table, also after later fetches succeed. *)
Theorem error_outlives_success (d : deps) (i : instance) (r : response) (data : list Ayah) :
  ok r = true → json r = Returns data →
  let i' := refetch d i (Returns r) in
  state i' = {| ayahs := data; isLoading := false; error := error (state i) |}
  ∧ ∀ AyahTable_row message selectedSurah,
      error (state i) = Some message → truthy message = true →
      App_view AyahTable_row (state i') (Some selectedSurah) = ErrorScreen message.
Proof.
  intros Hok Hjson i'.
  assert (Hst : state i'
                = {| ayahs := data; isLoading := false; error := error (state i) |}).
  { unfold i', refetch, fetchAyahs, fetch. destruct r as [o st j]. simpl in *. subst.
    by destruct (closure i). }
  split; [done|].
  intros row message sel Herr Hmsg. rewrite Hst. unfold App_view. simpl.
  rewrite Herr. by destruct message.
Qed.

Lemma error_outlives_success_witness :
  let failing := refetch App2.useAyahs_deps first_render Sample.server_error in
  let i' := refetch App2.useAyahs_deps failing (Sample.ok_with Sample.collection) in
  ayahs (state i') = Sample.collection
  ∧ App2.App ∅ (state i') (Some (Finite 1)) = ErrorScreen "Failed to fetch ayahs".
Proof.
  intros failing i'.
  destruct (error_outlives_success App2.useAyahs_deps failing
              {| ok := true; statusText := "OK"; json := Returns Sample.collection |}
              Sample.collection eq_refl eq_refl) as [Hst Hview].
  split.
  - exact (f_equal ayahs Hst).
  - exact (Hview (App2.AyahTable_row ∅) "Failed to fetch ayahs"%string (Finite 1)
             eq_refl eq_refl).
Defined.

(** * The selected surah *)

Lemma surahNumbers_nil (l : list Ayah) : surahNumbers l = [] ↔ l = [].
Proof.
  split; [|by intros ->].
  destruct l as [|a l]; [done|]. intros Hnil. exfalso.
  assert (Hin : getSurahNumber (id a) ∈ surahNumbers (a :: l)).
  { unfold surahNumbers. rewrite sort_perm, elem_of_from_set. simpl. set_solver. }
  rewrite Hnil in Hin. by apply elem_of_nil in Hin.
Qed.

Lemma after_render_selected (a : app) :
  selected (after_render a)
  = match selected a with
    | Some n => Some n
    | None => surahNumbers (ayahs (state (hooks a))) !! 0%nat
    end.
Proof.
  unfold after_render, set_initial_surah. simpl.
  destruct (selected a) as [n|]; simpl.
  - by rewrite andb_false_r.
  - rewrite andb_true_r. by destruct (surahNumbers _) as [|first rest].
Qed.

Lemma brings_nothing_keeps_empty d i answer :
  brings_nothing answer → ayahs (state i) = [] → ayahs (state (refetch d i answer)) = [].
Proof.
  intros Hnothing Hempty.
  assert (Hes : ayahs (commit (state i) (effects (fetchAyahs (closure i) answer))) = []);
    [|done].
  destruct Hnothing as [Hf|(r & -> & Hjson)].
  - destruct (fetchAyahs_failed (closure i) answer Hf) as (message & -> & _).
    unfold commit. rewrite foldl_app. simpl.
    by destruct (length (closure i) =? 0)%nat.
  - unfold fetchAyahs, fetch. destruct r as [[] st j]; simpl in *; subst;
      by destruct (closure i).
Qed.

(** X4.  As long as no fetch has brought an item, no surah is selected and
    [App] renders nothing at all: neither the loading indicator of the first
    load nor the error of a first load that failed. *)
Theorem blank_until_first_items (d : deps) (answers : list (completion response))
    (AyahTable_row : Ayah → tr) :
  Forall brings_nothing answers →
  let a := app_run d app_mount answers in
  ayahs (state (hooks a)) = []
  ∧ selected a = None
  ∧ App_view AyahTable_row (state (hooks a)) (selected a) = Nothing.
Proof.
  intros Hall.
  cut (∀ a0, ayahs (state (hooks a0)) = [] → selected a0 = None →
         ayahs (state (hooks (app_run d a0 answers))) = []
         ∧ selected (app_run d a0 answers) = None).
  { intros Hcut a. destruct (Hcut app_mount eq_refl eq_refl) as [? Hsel].
    split_and!; [done..|]. unfold a. by rewrite Hsel. }
  induction Hall as [|answer answers Hanswer _ IH]; intros a0 Hempty Hsel; [done|].
  simpl. apply IH.
  - exact (brings_nothing_keeps_empty d (hooks a0) answer Hanswer Hempty).
  - unfold app_refetch. rewrite after_render_selected.
    cbn [selected hooks]. rewrite Hsel.
    by rewrite (brings_nothing_keeps_empty d (hooks a0) answer Hanswer Hempty).
Qed.

Lemma blank_until_first_items_witness :
  Forall brings_nothing [Sample.server_error; Sample.ok_with []]
  ∧ (let a := app_run App2.useAyahs_deps app_mount [Sample.server_error; Sample.ok_with []] in
     error (state (hooks a)) = Some "Failed to fetch ayahs"%string
     ∧ App2.App ∅ (state (hooks a)) (selected a) = Nothing).
Proof.
  assert (H : Forall brings_nothing [Sample.server_error; Sample.ok_with []]).
  { constructor; [left; simpl; auto|].
    constructor; [right; by eexists|]. constructor. }
  split; [exact H|]. split; [reflexivity|].
  exact (proj2 (proj2 (blank_until_first_items App2.useAyahs_deps _ (App2.AyahTable_row ∅) H))).
Defined.

(** X5.  In every state [App] can reach, a collection that is not empty has
    a surah selected, so the page is never held back by a missing
    selection. *)
Theorem items_have_selection (d : deps) (a : app) :
  app_reachable d a →
  ayahs (state (hooks a)) ≠ [] → is_Some (selected a).
Proof.
  assert (Hafter : ∀ b, ayahs (state (hooks b)) ≠ [] → is_Some (selected (after_render b))).
  { intros b Hne. rewrite after_render_selected. destruct (selected b); [done|].
    destruct (surahNumbers _) as [|first rest] eqn:Hns; [|done].
    by apply surahNumbers_nil in Hns. }
  induction 1 as [|a answer _ _|a value _ _]; intros Hne.
  - by apply Hafter.
  - by apply Hafter.
  - done.
Qed.

Lemma items_have_selection_witness :
  let a := app_refetch App2.useAyahs_deps app_mount (Sample.ok_with Sample.collection) in
  ayahs (state (hooks a)) = Sample.collection ∧ selected a = Some (Finite 1)
  ∧ is_Some (selected a).
Proof.
  intros a. split_and!; [reflexivity..|].
  apply (items_have_selection App2.useAyahs_deps a).
  - apply app_reachable_refetch, app_reachable_mount.
  - discriminate.
Defined.

(** X6.  A selected surah is never changed by a refetch, whatever the
    fetches bring; when the collection no longer holds an item of that
    surah, the surah is missing from the selector's list and the table is
    empty. *)
Theorem selection_survives_refetch (d : deps) (a : app) (n : number)
    (answers : list (completion response)) :
  selected a = Some n →
  let a' := app_run d a answers in
  selected a' = Some n
  ∧ (n ∉ surahNumbers (ayahs (state (hooks a'))) →
       filteredAyahs (ayahs (state (hooks a'))) n = []).
Proof.
  intros Hsel a'.
  assert (Hsel' : selected a' = Some n).
  { subst a'. revert a Hsel.
    induction answers as [|answer answers IH]; intros a Hsel; [done|].
    simpl. apply IH. unfold app_refetch. rewrite after_render_selected.
    cbn [selected hooks]. by rewrite Hsel. }
  split; [done|].
  intros Hnot. destruct (filteredAyahs _ n) as [|row rows] eqn:Hrows; [done|].
  exfalso. apply Hnot.
  assert (Hrow : row ∈ filteredAyahs (ayahs (state (hooks a'))) n) by (rewrite Hrows; set_solver).
  unfold filteredAyahs in Hrow.
  rewrite sort_perm, list_elem_of_filter, Is_true_true, strict_eq_true in Hrow.
  destruct Hrow as [[<- _] Hin].
  unfold surahNumbers. rewrite sort_perm, elem_of_from_set.
  apply list_elem_of_In, in_map_iff. exists row. by rewrite <-list_elem_of_In.
Qed.

Lemma selection_survives_refetch_witness :
  let a := app_refetch App2.useAyahs_deps app_mount (Sample.ok_with Sample.collection) in
  let a' := app_run App2.useAyahs_deps a [Sample.ok_with [Sample.item "7_1" None]] in
  selected a = Some (Finite 1)
  ∧ selected a' = Some (Finite 1)
  ∧ surahNumbers (ayahs (state (hooks a'))) = [Finite 7]
  ∧ filteredAyahs (ayahs (state (hooks a'))) (Finite 1) = [].
Proof.
  intros a a'.
  destruct (selection_survives_refetch App2.useAyahs_deps a (Finite 1)
              [Sample.ok_with [Sample.item "7_1" None]] eq_refl) as [Hsel Hempty].
  split_and!; [reflexivity|exact Hsel|reflexivity|].
  apply Hempty. intros Hin. vm_compute in Hin.
  apply list_elem_of_singleton in Hin. discriminate Hin.
Defined.

(** * Further properties of the event stream and of the row buttons *)

Lemma is_string_true v literal : is_string v literal = true ↔ v = Some (Str literal).
Proof.
  destruct v as [[| | |s| |]|]; simpl; try (split; [discriminate|intros [=]]).
  rewrite String.eqb_eq. split; [by intros ->|by intros [= ->]].
Qed.

Lemma bind_throws {E A B} (e : thrown) (k : A → io E B) :
  bind (eval (Throws e)) k = ([], Throws e).
Proof. done. Qed.

(** X7.  The message handler never throws.  Data that is not JSON is
    logged and dropped; and a message whose [type] is not the string
    ["split_finished"] causes at most one alert or one log line: no request
    and no state update. *)
Theorem onmessage_safe (refetch : io effect ()) (parsed : completion value) :
  (App2.onmessage refetch parsed).2 = Returns ()
  ∧ (∀ err, parsed = Throws err →
       effects (App2.onmessage refetch parsed) = [ConsoleError])
  ∧ (∀ msg, parsed = Returns msg →
       get (Some msg) "type" ≠ Returns (Some (Str "split_finished")) →
       Forall is_notice (effects (App2.onmessage refetch parsed))
       ∧ (length (effects (App2.onmessage refetch parsed)) ≤ 1)%nat).
Proof.
  assert (Hquiet : ∀ msg,
    get (Some msg) "type" ≠ Returns (Some (Str "split_finished")) →
    ∃ es, App2.onmessage refetch (Returns msg) = (es, Returns ())
          ∧ Forall is_notice es ∧ (length es ≤ 1)%nat).
  { intros msg Htype. unfold App2.onmessage. rewrite bind_eval.
    destruct (get (Some msg) "type") as [type|e] eqn:Ht;
      [rewrite bind_eval|rewrite bind_throws; eexists; split; [done|]; by repeat constructor].
    destruct (is_string type "split_finished") eqn:Hfin.
    { apply is_string_true in Hfin. congruence. }
    destruct (is_string type "split_failed");
      [|eexists; split; [done|]; by repeat constructor].
    destruct (get (Some msg) "data") as [data|e];
      [rewrite bind_eval|rewrite bind_throws; eexists; split; [done|]; by repeat constructor].
    destruct (get data "item_id") as [item_id|e];
      [rewrite bind_eval|rewrite bind_throws; eexists; split; [done|]; by repeat constructor].
    destruct (get data "error") as [error|e];
      [rewrite bind_eval|rewrite bind_throws; eexists; split; [done|]; by repeat constructor].
    eexists; split; [done|]. by repeat constructor. }
  split_and!.
  - destruct parsed as [msg|err]; [|done].
    assert (get (Some msg) "type" = Returns (Some (Str "split_finished"))
            ∨ get (Some msg) "type" ≠ Returns (Some (Str "split_finished"))) as [Ht|Ht].
    { destruct (get (Some msg) "type") as [type|e]; [|by right].
      destruct (is_string type "split_finished") eqn:Hfin.
      - left. f_equal. by apply is_string_true.
      - right. intros [= ->]. by rewrite (proj2 (is_string_true _ _) eq_refl) in Hfin. }
    + unfold App2.onmessage. by rewrite !bind_eval, Ht, bind_eval.
    + destruct (Hquiet msg Ht) as (es & -> & _). done.
  - by intros err ->.
  - intros msg -> Ht. destruct (Hquiet msg Ht) as (es & -> & Hes). done.
Qed.

Lemma onmessage_safe_witness :
  let heartbeat := Object [("type", Str "ping")]%string in
  get (Some heartbeat) "type" ≠ Returns (Some (Str "split_finished"))
  ∧ effects (App2.onmessage (fetchAyahs [] Sample.server_error) (Returns heartbeat)) = []
  ∧ Forall is_notice
      (effects (App2.onmessage (fetchAyahs [] Sample.server_error) (Returns heartbeat))).
Proof.
  intros heartbeat.
  assert (H : get (Some heartbeat) "type" ≠ Returns (Some (Str "split_finished")))
    by discriminate.
  split_and!; [exact H|reflexivity|].
  exact (proj1 (proj2 (proj2 (onmessage_safe (fetchAyahs [] Sample.server_error)
                                 (Returns heartbeat))) heartbeat eq_refl H)).
Defined.

Lemma fetchAyahs_returns seen answer :
  ∃ es, fetchAyahs seen answer = (es, Returns ()).
Proof.
  unfold fetchAyahs, fetch.
  destruct seen, answer as [[[] ? [?|?]]|[]]; by eexists.
Qed.

(** X8.  A click on "Auto-Split" posts to [/split/<id>].  If the post is
    rejected or answered with a status that is not 2xx, the operator gets
    one alert and the collection is not read again; if it is answered 2xx,
    the collection is read again and nothing else happens.  Either way the
    click does not throw and the button ends idle. *)
Theorem auto_split_click (seen : list Ayah) (ayah : Ayah)
    (first second : completion response) :
  let click := App2.click_auto_split seen ayah first second in
  let post := Fetch {| req_method := POST;
                       req_url := API_BASE_URL +:+ "/split/" +:+ id ayah;
                       req_split_time_ms := None |} in
  click.2 = Returns ()
  ∧ effects click
    = [ButtonSetIsLoading true; post]
      ++ match first with
         | Returns r =>
             if ok r then effects (fetchAyahs seen second)
             else [Alert ("Failed to split ayah: " +:+ statusText r)]
         | Throws err => [Alert (message_or_default err)]
         end
      ++ [ButtonSetIsLoading false].
Proof.
  intros click post. subst click post.
  unfold App2.click_auto_split, LoadingButton.handleClick, splitAyah, fetch.
  destruct (fetchAyahs_returns seen second) as [es ->].
  destruct first as [[[] st j]|err]; simpl; by rewrite ?app_nil_r.
Qed.

(** X9.  A click on "Approve" posts to [/approve/<id>] and then reads the
    collection again whatever the status of the answer: a status that is
    not 2xx raises no alert.  Only a rejected post is reported, and then the
    collection is not read again. *)
Theorem approve_click (seen : list Ayah) (ayah : Ayah)
    (first second : completion response) :
  let click := App2.click_approve seen ayah first second in
  let post := Fetch {| req_method := POST;
                       req_url := API_BASE_URL +:+ "/approve/" +:+ id ayah;
                       req_split_time_ms := None |} in
  click.2 = Returns ()
  ∧ effects click
    = [ButtonSetIsLoading true; post]
      ++ match first with
         | Returns _ => effects (fetchAyahs seen second)
         | Throws err => [Alert (message_or_default err)]
         end
      ++ [ButtonSetIsLoading false].
Proof.
  intros click post. subst click post.
  unfold App2.click_approve, LoadingButton.handleClick, approve, fetch.
  destruct (fetchAyahs_returns seen second) as [es ->].
  destruct first as [[o st j]|err]; simpl; by rewrite ?app_nil_r.
Qed.

(** X10.  Confirming a split with a position recorded closes the modal
    exactly when the post to [/split_custom/<id>] is answered 2xx, after the
    collection has been read again; when the post is rejected or answered
    otherwise, the operator gets one alert, the collection is not read
    again and the modal stays open. *)
Theorem confirm_split_closes (editingAyah : Ayah) (seen : list Ayah)
    (first second : completion response) (t : float) :
  let click := App2.confirm_split editingAyah (fetchAyahs seen second) first (Some t) in
  let post := Fetch {| req_method := POST;
                       req_url := API_BASE_URL +:+ "/split_custom/" +:+ id editingAyah;
                       req_split_time_ms := Some (t * 1000)%float |} in
  click.2 = Returns ()
  ∧ effects click
    = [ButtonSetIsLoading true; post]
      ++ match first with
         | Returns r =>
             if ok r then effects (fetchAyahs seen second) ++ [SetEditingAyah None]
             else [Alert ("Failed to split ayah: " +:+ statusText r)]
         | Throws err => [Alert (message_or_default err)]
         end
      ++ [ButtonSetIsLoading false].
Proof.
  intros click post. subst click post.
  unfold App2.confirm_split, EditAyahModal.confirm, EditAyahModal.handleSplit,
    LoadingButton.handleClick, App2.handleSplitAtTime, fetch.
  destruct (fetchAyahs_returns seen second) as [es ->].
  destruct first as [[[] st j]|err]; simpl; by rewrite ?app_nil_r, <-?app_assoc.
Qed.

(** * The status of a surah *)

Lemma length_filter_eq {A} (P : A → Prop) `{!∀ x, Decision (P x)} (l : list A) :
  length (filter P l) = length l ↔ Forall P l.
Proof.
  induction l as [|x l IH]; simpl; [by split; [constructor|]|].
  rewrite filter_cons. case_decide as HP; simpl.
  - rewrite Forall_cons. split; [intros [=]; split; [done|by apply IH]|].
    intros [_ ?]. f_equal. by apply IH.
  - pose proof (length_filter P l). split; [lia|]. by intros [? _]%Forall_cons.
Qed.

Lemma length_zero_elem {A} (l : list A) : (length l =? 0)%nat = true ↔ ∀ x, x ∉ l.
Proof.
  rewrite Nat.eqb_eq, length_zero_iff_nil. split; [intros -> x; apply not_elem_of_nil|].
  destruct l as [|x l]; [done|]. intros H. destruct (H x). set_solver.
Qed.

(** X11.  [getSurahStatus] tells the four cases apart as follows: "none"
    when the collection has no item of the surah, "unprocessed" when it has
    some and all have [matches] null, "some" when an item of the surah has
    [matches] false, and "all" when at least one item is processed and none
    has [matches] false.  ([forced_approved] plays no part.) *)
Theorem getSurahStatus_cases (ayahs : list Ayah) (surahNumber : number) :
  let of_surah a :=
    a ∈ ayahs ∧ getSurahNumber (id a) = surahNumber ∧ surahNumber ≠ NaN in
  (App2.getSurahStatus ayahs surahNumber = App2.StatusNone ↔ ∀ a, ¬ of_surah a)
  ∧ (App2.getSurahStatus ayahs surahNumber = App2.StatusUnprocessed ↔
       (∃ a, of_surah a) ∧ ∀ a, of_surah a → matches a = None)
  ∧ (App2.getSurahStatus ayahs surahNumber = App2.StatusSome ↔
       ∃ a, of_surah a ∧ matches a = Some false)
  ∧ (App2.getSurahStatus ayahs surahNumber = App2.StatusAll ↔
       (∃ a, of_surah a ∧ matches a ≠ None)
       ∧ ∀ a, of_surah a → matches a ≠ Some false).
Proof.
  intros of_surah. unfold App2.getSurahStatus.
  set (surahAyahs := filter _ ayahs).
  set (processedAyahs := filter _ surahAyahs).
  assert (Hs : ∀ a, a ∈ surahAyahs ↔ of_surah a).
  { intros a. unfold surahAyahs, of_surah.
    rewrite list_elem_of_filter, Is_true_true, strict_eq_true. naive_solver. }
  assert (Hp : ∀ a, a ∈ processedAyahs ↔ of_surah a ∧ matches a ≠ None).
  { intros a. unfold processedAyahs. rewrite list_elem_of_filter, Hs. naive_solver. }
  assert (Hm : Forall (λ a, matches a = Some true) processedAyahs
               ↔ ∀ a, of_surah a → matches a ≠ Some false).
  { rewrite Forall_forall. setoid_rewrite Hp. split.
    - intros H a Ha Hfalse. specialize (H a). rewrite Hfalse in H.
      assert (Some false = Some true) by (apply H; done). done.
    - intros H a [Ha Hnone]. specialize (H a Ha).
      by destruct (matches a) as [[]|]. }
  destruct (length surahAyahs =? 0)%nat eqn:He.
  { rewrite length_zero_elem in He. setoid_rewrite Hs in He.
    split_and!; split; try done; naive_solver. }
  assert (Hsome : ∃ a, of_surah a).
  { destruct surahAyahs as [|a l] eqn:Heq; [done|]. exists a. apply Hs. set_solver. }
  destruct (length processedAyahs =? 0)%nat eqn:Hu.
  { rewrite length_zero_elem in Hu. setoid_rewrite Hp in Hu.
    assert (Hnone : ∀ a, of_surah a → matches a = None).
    { intros a Ha. destruct (matches a) eqn:Hma; [|done].
      destruct (Hu a). split; [done|congruence]. }
    split_and!; split; try done.
    - intros H. destruct Hsome as [a Ha]. by destruct (H a).
    - intros (a & Ha & Hfalse). rewrite (Hnone a Ha) in Hfalse. done.
    - intros [(a & Ha & Hproc) _]. by destruct Hproc; apply Hnone. }
  assert (Hproc : ∃ a, of_surah a ∧ matches a ≠ None).
  { destruct processedAyahs as [|a l] eqn:Heq; [done|]. exists a. apply Hp. set_solver. }
  destruct (length (filter _ processedAyahs) =? length processedAyahs)%nat eqn:Ha.
  - apply Nat.eqb_eq, length_filter_eq in Ha. pose proof (proj1 Hm Ha) as Hall.
    split_and!; split; try done.
    + intros H. destruct Hsome as [a Hof]. by destruct (H a).
    + intros [_ H]. destruct Hproc as (a & Hof & Hne). destruct Hne. by apply H.
    + intros (a & Hof & Hfalse). by destruct (Hall a Hof).
  - apply Nat.eqb_neq in Ha. rewrite length_filter_eq in Ha.
    assert (Hfalse : ∃ a, of_surah a ∧ matches a = Some false).
    { apply not_Forall_Exists in Ha; [|apply _].
      apply Exists_exists in Ha as (a & [Hof Hne]%Hp & Hnot). exists a. split; [done|].
      simpl in Hnot. by destruct (matches a) as [[]|]. }
    split_and!; split; try done.
    + intros H. destruct Hsome as [a Hof]. by destruct (H a).
    + intros [_ H]. destruct Hproc as (a & Hof & Hne). destruct Hne. by apply H.
    + intros [_ H]. destruct Hfalse as (a & Hof & Hf). by destruct (H a Hof).
Qed.

(** * Further properties of the surah list and of the rows *)

(** X12.  An item whose identifier does not begin with a number is never
    put on the page, whichever surah is selected; an item whose identifier
    does is listed in the selector with its surah number and is on the page
    of that surah, and of no other. *)
Theorem rows_by_surah (ayahs : list Ayah) :
  (∀ a selectedSurah,
     getSurahNumber (id a) = NaN → a ∉ filteredAyahs ayahs selectedSurah)
  ∧ (∀ a, a ∈ ayahs → getSurahNumber (id a) ≠ NaN →
          getSurahNumber (id a) ∈ surahNumbers ayahs
          ∧ a ∈ filteredAyahs ayahs (getSurahNumber (id a)))
  ∧ (∀ a n m, a ∈ filteredAyahs ayahs n → a ∈ filteredAyahs ayahs m → n = m).
Proof.
  assert (Hrow : ∀ a n, a ∈ filteredAyahs ayahs n
                        ↔ a ∈ ayahs ∧ getSurahNumber (id a) = n ∧ n ≠ NaN).
  { intros a n. unfold filteredAyahs.
    rewrite sort_perm, list_elem_of_filter, Is_true_true, strict_eq_true. naive_solver. }
  split_and!.
  - intros a sel Hnan (_ & <- & Hne)%Hrow. done.
  - intros a Ha Hne. split; [|by apply Hrow].
    unfold surahNumbers. rewrite sort_perm, elem_of_from_set.
    apply list_elem_of_In, in_map_iff. exists a. by rewrite <-list_elem_of_In.
  - intros a n m (_ & <- & _)%Hrow (_ & <- & _)%Hrow. done.
Qed.

Lemma rows_by_surah_witness :
  let stray := Sample.item "intro" None in
  let ayahs := stray :: Sample.collection in
  getSurahNumber (id stray) = NaN
  ∧ (stray ∉ filteredAyahs ayahs (Finite 1))
  ∧ id <$> filteredAyahs ayahs (Finite 1) = ["1_1"; "1_2"]%string.
Proof.
  intros stray ayahs. split_and!; [reflexivity| |reflexivity].
  exact (proj1 (rows_by_surah ayahs) stray (Finite 1) eq_refl).
Defined.

#[export] Instance num_le_antisymm : AntiSymm (=) num_le.
Proof.
  intros a b [Hab|[-> _]] [Hba|[? _]]; try done.
  destruct a, b; simpl in *; try done. lia.
Qed.

Lemma surahNumbers_ascending (ayahs : list Ayah) :
  (∀ a, a ∈ ayahs → getSurahNumber (id a) ≠ NaN) →
  StronglySorted num_le (surahNumbers ayahs).
Proof.
  intros Hnum. apply (sort_sorted _ num_le), sub_agrees_num_le.
  intros n Hn. apply elem_of_from_set, list_elem_of_In, in_map_iff in Hn.
  destruct Hn as (a & <- & Ha). by apply Hnum, list_elem_of_In.
Qed.

(** X13.  The surah list depends on the collection only through the set of
    surah numbers in it: two collections of numbered items with the same
    surah numbers (the same items in another order, say) give the same
    list. *)
Theorem surahNumbers_same_set (ayahs1 ayahs2 : list Ayah) :
  (∀ a, a ∈ ayahs1 → getSurahNumber (id a) ≠ NaN) →
  (∀ n, (∃ a, a ∈ ayahs1 ∧ getSurahNumber (id a) = n)
        ↔ (∃ a, a ∈ ayahs2 ∧ getSurahNumber (id a) = n)) →
  surahNumbers ayahs1 = surahNumbers ayahs2.
Proof.
  intros Hnum1 Hsame.
  assert (Hin : ∀ l n, n ∈ surahNumbers l ↔ ∃ a, a ∈ l ∧ getSurahNumber (id a) = n).
  { intros l n. unfold surahNumbers.
    rewrite sort_perm, elem_of_from_set, list_elem_of_In, in_map_iff.
    setoid_rewrite <-list_elem_of_In. naive_solver. }
  assert (Hnum2 : ∀ a, a ∈ ayahs2 → getSurahNumber (id a) ≠ NaN).
  { intros a Ha. destruct (proj2 (Hsame (getSurahNumber (id a)))) as (b & Hb & <-);
      [by exists a|]. by apply Hnum1. }
  apply (StronglySorted_unique num_le); [by apply surahNumbers_ascending..|].
  apply NoDup_Permutation.
  - unfold surahNumbers. rewrite sort_perm. apply from_set_NoDup.
  - unfold surahNumbers. rewrite sort_perm. apply from_set_NoDup.
  - intros n. by rewrite !Hin.
Qed.

Lemma surahNumbers_same_set_witness :
  surahNumbers (reverse Sample.collection) = surahNumbers Sample.collection.
Proof.
  apply surahNumbers_same_set.
  - intros a Ha. unfold Sample.collection in Ha. simpl in Ha.
    repeat (apply elem_of_cons in Ha as [->|Ha]; [discriminate|]).
    by apply elem_of_nil in Ha.
  - intros n. by setoid_rewrite elem_of_reverse.
Defined.

(** * Further properties of the audio players *)

(** X14.  Cache busting: for a media URL [dir/stem.ext] whose [stem] is
    not empty and names no member of [Object.prototype], two states of the
    version cache with counters below [2^53] for [stem] give the player the
    same source exactly when they hold the same counter for [stem] (an
    absent entry counting as 0); so every change of that counter changes the
    source, and no other entry of the cache has any influence on it. *)
Theorem AudioPlayer_src_changes (c1 c2 : gmap string nat) (dir stem ext title : string) :
  includes "/" stem = false → includes "." stem = false → includes "/" ext = false →
  truthy stem = true →
  inherited stem = None →
  Z.of_nat (default 0%nat (c1 !! stem)) < 2 ^ 53 →
  Z.of_nat (default 0%nat (c2 !! stem)) < 2 ^ 53 →
  let url := dir +:+ "/" +:+ stem +:+ "." +:+ ext in
  src (App2.AudioPlayer c1 url title) = src (App2.AudioPlayer c2 url title)
  ↔ default 0%nat (c1 !! stem) = default 0%nat (c2 !! stem).
Proof.
  intros Hs Hd He Hstem Hmember H1 H2 url. unfold url.
  rewrite !AudioPlayer_key, !or_zero_read, !property_text_counter by done.
  cbn [src]. split; [|by intros ->].
  intros H. by apply (inj (String.app _)), (inj (String.app "?v=")), (inj pretty) in H.
Qed.

Lemma AudioPlayer_src_changes_witness :
  let before : gmap string nat := {[ "2_5"%string := 1%nat; "2_6"%string := 4%nat ]} in
  let other : gmap string nat := <[ "2_6"%string := 5%nat ]> before in
  let bumped : gmap string nat := <[ "2_5"%string := 2%nat ]> before in
  src (App2.AudioPlayer before "/audio/2_5.mp3" "") = "/audio/2_5.mp3?v=1"%string
  ∧ src (App2.AudioPlayer other "/audio/2_5.mp3" "")
    = src (App2.AudioPlayer before "/audio/2_5.mp3" "")
  ∧ src (App2.AudioPlayer bumped "/audio/2_5.mp3" "")
    ≠ src (App2.AudioPlayer before "/audio/2_5.mp3" "").
Proof.
  intros before other bumped.
  pose proof (AudioPlayer_src_changes other before "/audio" "2_5" "mp3" ""
                eq_refl eq_refl eq_refl eq_refl eq_refl eq_refl eq_refl) as Hother.
  pose proof (AudioPlayer_src_changes bumped before "/audio" "2_5" "mp3" ""
                eq_refl eq_refl eq_refl eq_refl eq_refl eq_refl eq_refl) as Hbumped.
  split_and!; [reflexivity| |].
  - apply Hother. reflexivity.
  - intros Heq. apply Hbumped in Heq. vm_compute in Heq. discriminate Heq.
Defined.

(** * Identifiers written in decimal *)

Lemma pretty_N_char_digit (d : N) :
  (d < 10)%N → digit_value (pretty_N_char d) = Some (Z.of_N d).
Proof.
  intros Hd.
  assert (d = 0 ∨ d = 1 ∨ d = 2 ∨ d = 3 ∨ d = 4 ∨ d = 5 ∨ d = 6 ∨ d = 7 ∨ d = 8 ∨ d = 9)%N
    as Hcases by lia.
  repeat (destruct Hcases as [->|Hcases]; [reflexivity|]). by subst.
Qed.

Lemma decimal_pretty_N_go (x : N) (s : string) :
  decimal s = true → decimal (pretty_N_go x s) = true.
Proof.
  revert s. induction (N.lt_wf_0 x) as [x _ IH]; intros s Hs.
  destruct (decide (x = 0)%N) as [->|Hx]; [done|].
  rewrite pretty_N_go_step by lia. apply IH; [apply N.div_lt; lia|].
  simpl. rewrite pretty_N_char_digit by (apply N.mod_lt; lia).
  rewrite Hs, andb_true_r. apply Z.ltb_lt.
  pose proof (N.mod_lt x 10). lia.
Qed.

Lemma digits_pretty_N_go (x : N) (s : string) (acc : option Z) :
  default 0 acc = 0 → (0 < x)%N →
  digits 10 (pretty_N_go x s) acc = digits 10 s (Some (Z.of_N x)).
Proof.
  revert s. induction (N.lt_wf_0 x) as [x _ IH]; intros s Hacc Hx.
  rewrite pretty_N_go_step by done.
  pose proof (N.mod_lt x 10 ltac:(done)) as Hmod.
  pose proof (N.div_mod x 10 ltac:(done)) as Hdiv.
  assert (Hchar : ∀ hi, digits 10 (String (pretty_N_char (x `mod` 10)) s) hi
                       = digits 10 s (Some (default 0 hi * 10 + Z.of_N (x `mod` 10)))).
  { intros hi. simpl. rewrite pretty_N_char_digit by done.
    by rewrite (proj2 (Z.ltb_lt _ _)) by lia. }
  destruct (decide (x `div` 10 = 0)%N) as [Hz|Hnz].
  - rewrite Hz, pretty_N_go_0, Hchar, Hacc. do 2 f_equal. lia.
  - rewrite IH by (try apply N.div_lt; lia). rewrite Hchar. simpl. do 2 f_equal. lia.
Qed.

Lemma decimal_pretty (n : N) : decimal (pretty n) = true.
Proof.
  unfold pretty, pretty_N. case_decide; [done|]. by apply decimal_pretty_N_go.
Qed.

Lemma digits_pretty (n : N) : digits 10 (pretty n) None = Some (Z.of_N n).
Proof.
  unfold pretty, pretty_N. case_decide as Hn; [by subst|].
  rewrite digits_pretty_N_go by (done || lia). done.
Qed.

Lemma pretty_nonempty (n : N) : pretty n ≠ ""%string.
Proof.
  intros Hempty. pose proof (digits_pretty n) as Hd. rewrite Hempty in Hd. done.
Qed.

Lemma decimal_char (c : ascii) (rest : string) :
  decimal (String c rest) = true →
  decimal rest = true
  ∧ c ∈ ["0"; "1"; "2"; "3"; "4"; "5"; "6"; "7"; "8"; "9"]%char.
Proof.
  simpl. destruct (digit_value c) as [d|] eqn:Hd; [|done].
  intros [Hlt%Z.ltb_lt Hrest]%andb_true_iff. split; [done|].
  destruct c as [[] [] [] [] [] [] [] []]; vm_compute in Hd; simplify_eq;
    try (vm_compute in Hlt; discriminate Hlt); set_solver.
Qed.

Lemma decimal_without (sep : ascii) (s : string) :
  digit_value sep = None → decimal s = true → includes sep s = false.
Proof.
  intros Hsep. induction s as [|c s IH]; [done|].
  intros Hdec. pose proof Hdec as [Hrest _]%decimal_char.
  simpl in *. rewrite IH, orb_false_r by done.
  apply Ascii.eqb_neq. intros ->. by rewrite Hsep in Hdec.
Qed.

(** [parseInt] of a non-empty string of decimal digits is the number the
    digits write. *)
Lemma parseInt_decimal (s : string) :
  decimal s = true →
  parseInt s = match digits 10 s None with
               | None => NaN
               | Some mathInt => to_double mathInt
               end.
Proof.
  destruct s as [|c rest]; [done|].
  intros [Hrest Hc]%decimal_char.
  assert (Hone : ∀ o : option Z,
            match o with None => NaN | Some m => to_double (1 * m) end
            = match o with None => NaN | Some m => to_double m end).
  { intros [m|]; [|done]. by rewrite Z.mul_1_l. }
  repeat (apply elem_of_cons in Hc as [->|Hc]; [|]); try (by apply elem_of_nil in Hc);
    try (rewrite <-Hone; reflexivity).
  destruct rest as [|c2 rest2]; [done|].
  apply decimal_char in Hrest as [_ Hc2].
  repeat (apply elem_of_cons in Hc2 as [->|Hc2]; [|]); try (by apply elem_of_nil in Hc2);
    rewrite <-Hone; reflexivity.
Qed.

Lemma parseInt_pretty (n : N) : parseInt (pretty n) = to_double (Z.of_N n).
Proof. by rewrite parseInt_decimal, digits_pretty by apply decimal_pretty. Qed.

(** X15.  An identifier made of the decimal surah number, ["_"] and the
    decimal ayah number is read back exactly by [parseAyahId] and
    [getSurahNumber], for all numbers below 2^53. *)
Theorem parseAyahId_decimal (s a : N) :
  (s < 2 ^ 53)%N → (a < 2 ^ 53)%N →
  let ayahId := pretty s +:+ "_" +:+ pretty a in
  parseAyahId ayahId = {| surah := Finite (Z.of_N s); ayah := Finite (Z.of_N a) |}
  ∧ getSurahNumber ayahId = Finite (Z.of_N s).
Proof.
  intros Hs Ha ayahId.
  assert (Hparts : split "_" ayahId = [pretty s; pretty a]).
  { unfold ayahId.
    rewrite (split_app "_" (pretty s) (pretty a)
             : split "_" (pretty s +:+ "_" +:+ pretty a) = _).
    by rewrite !(split_without "_") by (apply decimal_without, decimal_pretty; done). }
  unfold parseAyahId, getSurahNumber. rewrite Hparts. simpl.
  change (parseInt_of (Some (pretty s))) with (parseInt (pretty s)).
  change (parseInt_of (Some (pretty a))) with (parseInt (pretty a)).
  rewrite !parseInt_pretty, !to_double_exact by lia. done.
Qed.

Lemma parseAyahId_decimal_witness :
  (114 < 2 ^ 53)%N ∧ (6 < 2 ^ 53)%N
  ∧ parseAyahId "114_6" = {| surah := Finite 114; ayah := Finite 6 |}.
Proof.
  split_and!; [reflexivity..|].
  exact (proj1 (parseAyahId_decimal 114 6 eq_refl eq_refl)).
Defined.

(** * Further properties of the refetch cycle *)

Lemma reachable_not_loading d i :
  reachable d i → i = first_render ∨ isLoading (state i) = false.
Proof.
  destruct 1 as [|i answer _]; [by left|right].
  unfold refetch, fetchAyahs, fetch. simpl.
  by destruct (closure i), answer as [[[] ? [?|?]]|[]].
Qed.

(** X16.  In the later revision a call of [refetch] is followed by another
    fetch of its own accord exactly when it changed the number of items (as
    the first load of a non-empty collection does); a fetch that fails
    never is.  In the earlier revision no fetch follows of its own
    accord. *)
Theorem refetch_fetches_again (i : instance) (answer : completion response) :
  reachable App2.useAyahs_deps i →
  (fetches_again App2.useAyahs_deps i answer = true
   ↔ length (ayahs (state (refetch App2.useAyahs_deps i answer)))
     ≠ length (ayahs (state i)))
  ∧ (failed answer → fetches_again App2.useAyahs_deps i answer = false)
  ∧ fetches_again App1.useAyahs_deps i answer = false.
Proof.
  intros Hlen%closure_length.
  assert (Hiff : fetches_again App2.useAyahs_deps i answer = true
                 ↔ length (ayahs (state (refetch App2.useAyahs_deps i answer)))
                   ≠ length (ayahs (state i))).
  { unfold fetches_again, refetch. simpl.
    rewrite negb_true_iff, Nat.eqb_neq, Hlen. split; intros H Heq; by apply H. }
  split_and!; [done| |done].
  intros Hf. apply not_true_is_false. rewrite Hiff. intros Hne. apply Hne.
  destruct (fetchAyahs_failed (closure i) answer Hf) as (message & Hes & _).
  unfold refetch. simpl. rewrite Hes. unfold commit. rewrite foldl_app. simpl.
  by destruct (length (closure i) =? 0)%nat.
Qed.

Lemma refetch_fetches_again_witness :
  reachable App2.useAyahs_deps first_render
  ∧ fetches_again App2.useAyahs_deps first_render (Sample.ok_with Sample.collection) = true
  ∧ fetches_again App2.useAyahs_deps
      (refetch App2.useAyahs_deps first_render (Sample.ok_with Sample.collection))
      (Sample.ok_with (reverse Sample.collection)) = false
  ∧ fetches_again App2.useAyahs_deps first_render Sample.server_error = false.
Proof.
  split_and!; [apply reachable_first|reflexivity..|].
  exact (proj1 (proj2 (refetch_fetches_again first_render Sample.server_error
                         (reachable_first _)))
           (or_introl eq_refl)).
Defined.

(** X17.  In the later revision a refetch over a collection that is not
    empty never shows the loading screen: the loading flag is off before it
    and stays off after each of its state updates. *)
Theorem background_refetch_not_loading (i : instance) (answer : completion response)
    (applied : list effect) :
  reachable App2.useAyahs_deps i →
  ayahs (state i) ≠ [] →
  applied `prefix_of` effects (fetchAyahs (closure i) answer) →
  isLoading (commit (state i) applied) = false.
Proof.
  intros Hreach Hne Hprefix.
  assert (Hoff : isLoading (state i) = false).
  { destruct (reachable_not_loading _ _ Hreach) as [->|?]; [by destruct Hne|done]. }
  assert (Hclosure : closure i ≠ []).
  { intros Hnil. apply Hne, length_zero_iff_nil.
    by rewrite <-(closure_length i Hreach), Hnil. }
  assert (Hes : ∃ req e, effects (fetchAyahs (closure i) answer)
                         = [Fetch req; e; SetIsLoading false]
                         ∧ ((∃ data, e = SetAyahs data) ∨ ∃ message, e = SetError message)).
  { unfold fetchAyahs, fetch.
    destruct (closure i) as [|a l]; [done|].
    destruct answer as [[[] ? [?|?]]|[]]; simpl; eauto 10. }
  destruct Hes as (req & e & Hes & He). rewrite Hes in Hprefix.
  destruct Hprefix as [rest Hrest].
  destruct applied as [|e1 [|e2 [|e3 [|e4 applied]]]]; simplify_eq/=; try done;
    destruct He as [[data ->]|[message ->]]; done.
Qed.

Lemma background_refetch_not_loading_witness :
  let i := refetch App2.useAyahs_deps first_render (Sample.ok_with Sample.collection) in
  let es := effects (fetchAyahs (closure i) Sample.server_error) in
  reachable App2.useAyahs_deps i
  ∧ ayahs (state i) ≠ []
  ∧ length es = 3%nat
  ∧ isLoading (commit (state i) (take 2 es)) = false.
Proof.
  intros i es.
  assert (Hi : reachable App2.useAyahs_deps i) by (apply reachable_refetch, reachable_first).
  assert (Hne : ayahs (state i) ≠ []) by discriminate.
  split_and!; [exact Hi|exact Hne|reflexivity|].
  apply (background_refetch_not_loading i Sample.server_error (take 2 es) Hi Hne).
  apply prefix_take.
Defined.
